(** * jacobs_register_helper: register field accessors

    A shallow embedding of the header [jacobs_register_helper.h]
    (macros [IMPLEMENT_REGISTER_*] and [DECLARE_REGISTER_*]) and of the
    example program, with the properties of the field accessor engine
    and of the register model stated over it.

    Integer model.  The header is compiled for a target where [int] and
    [unsigned int] are 32 bits wide.  Values of every C++ integer type are
    integers of [Z]; each conversion to a fixed-width type is written out
    ([to_uint8], [to_uint16], [to_uint32], [to_int]).  Operands narrower
    than [int] are promoted to [int] before arithmetic, so a [uint16_t]
    is shifted and masked as an [int]; the literal [0xFFFF] is an [int]
    and the literal [0xFFFF'FFFF] an [unsigned int]. *)

From Stdlib Require Import ZArith Lia Bool List String.
Import ListNotations.
Local Open Scope Z_scope.

(** ** C++ integer operations *)

Module Cxx.

(** Why an evaluation has no defined result: [ShiftCount], a shift count
    that is negative or not less than the width of the promoted left
    operand; [ShiftOverflow], a left shift of a negative [int] or one
    whose result does not fit [unsigned int]. *)
Inductive undefined : Type :=
| ShiftCount (count width : Z)
| ShiftOverflow (value count : Z).

Inductive result (A : Type) : Type :=
| Ok (a : A)
| UB (why : undefined).
Arguments Ok {A} a.
Arguments UB {A} why.

Definition bind {A B : Type} (c : result A) (k : A -> result B) : result B :=
  match c with
  | Ok a => k a
  | UB why => UB why
  end.

Definition int_width : Z := 32.

Definition to_uint8 (z : Z) : Z := z mod 2 ^ 8.
Definition to_uint16 (z : Z) : Z := z mod 2 ^ 16.
Definition to_uint32 (z : Z) : Z := z mod 2 ^ 32.

(** Conversion to [int]: the value modulo 2^32, read in two's complement. *)
Definition to_int (z : Z) : Z :=
  let u := z mod 2 ^ 32 in
  if u <? 2 ^ 31 then u else u - 2 ^ 32.

(** Conversion of an integer to [bool]. *)
Definition to_bool (z : Z) : bool := negb (z =? 0).

Definition bad_count (n : Z) : bool := (n <? 0) || (int_width <=? n).

(** [a << n] on [int]: undefined for a count outside [0..31], for a
    negative [a], and when [a * 2^n] does not fit [unsigned int];
    otherwise that product converted to [int] (so [1 << 31] is [INT_MIN],
    as two's-complement compilers and C++20 have it). *)
Definition shl_int (a n : Z) : result Z :=
  if bad_count n then UB (ShiftCount n int_width)
  else if (a <? 0) || (2 ^ 32 <=? a * 2 ^ n) then UB (ShiftOverflow a n)
  else Ok (to_int (Z.shiftl a n)).

(** [a >> n] on [int]. *)
Definition shr_int (a n : Z) : result Z :=
  if bad_count n then UB (ShiftCount n int_width)
  else Ok (Z.shiftr a n).

(** [a << n] on [unsigned int]. *)
Definition shl_uint (a n : Z) : result Z :=
  if bad_count n then UB (ShiftCount n int_width)
  else Ok (to_uint32 (Z.shiftl a n)).

(** [a >> n] on [unsigned int]. *)
Definition shr_uint (a n : Z) : result Z :=
  if bad_count n then UB (ShiftCount n int_width)
  else Ok (Z.shiftr a n).

End Cxx.
Import Cxx.

Declare Scope cxx_scope.
Notation "x <- c ;; k" := (bind c (fun x => k))
  (at level 61, c at next level, right associativity) : cxx_scope.
Local Open Scope cxx_scope.

(** ** Field permissions *)

Inductive REGISTER_PERMS : Type :=
| NONE
| READ
| WRITE
| READ_WRITE.

(** The enumerators' values: [0b00], [0b01], [0b10], [0b11]. *)
Definition perms_value (p : REGISTER_PERMS) : Z :=
  match p with
  | NONE => 0
  | READ => 1
  | WRITE => 2
  | READ_WRITE => 3
  end.

(** ** Per-field accessors

    Each definition takes the macro's [START] and [END] and the member
    [register_raw].  A getter returns the returned value; a setter returns
    its [bool] result together with the new [register_raw]. *)

Definition static_assert_16 (START END : Z) : bool :=
  ((0 <=? START) && (START <? 16)) &&
  ((0 <=? END) && (END <? 16) && (START <=? END)).

Definition static_assert_32 (START END : Z) : bool :=
  ((0 <=? START) && (START <? 32)) &&
  ((0 <=? END) && (END <? 32) && (START <=? END)).

Definition IMPLEMENT_REGISTER_16_GET (START END register_raw : Z) : result Z :=
  (* uint16_t buffer = register_raw >> START; *)
  b <- shr_int register_raw START ;;
  let buffer := to_uint16 b in
  (* return buffer & (0xFFFF >> (15 - (END - START))); *)
  m <- shr_int 0xFFFF (15 - (END - START)) ;;
  Ok (to_uint16 (Z.land buffer m)).

Definition IMPLEMENT_REGISTER_16_SET (START END register_raw value : Z)
  : result (bool * Z) :=
  (* if (value >= (1 << (END - START + 1))) return false; *)
  limit <- shl_int 1 (END - START + 1) ;;
  if value >=? limit then Ok (false, register_raw) else
  (* uint16_t mask = static_cast<uint16_t>(
       ~((0xFFFF >> (15 - (END - START))) << START)); *)
  m <- shr_int 0xFFFF (15 - (END - START)) ;;
  m <- shl_int m START ;;
  let mask := to_uint16 (Z.lnot m) in
  (* register_raw &= mask; *)
  let register_raw := to_uint16 (Z.land register_raw mask) in
  (* value = value << START; *)
  v <- shl_int value START ;;
  let value := to_uint16 v in
  (* register_raw |= value; return true; *)
  let register_raw := to_uint16 (Z.lor register_raw value) in
  Ok (true, register_raw).

Definition IMPLEMENT_REGISTER_32_GET (START END register_raw : Z) : result Z :=
  (* uint16_t buffer = register_raw >> START; *)
  b <- shr_uint register_raw START ;;
  let buffer := to_uint16 b in
  (* return buffer & (0xFFFF'FFFF >> (31 - (END - START)));
     the function's return type is uint16_t *)
  m <- shr_uint 0xFFFFFFFF (31 - (END - START)) ;;
  Ok (to_uint16 (Z.land (to_uint32 buffer) m)).

Definition IMPLEMENT_REGISTER_32_SET (START END register_raw value : Z)
  : result (bool * Z) :=
  (* if (value >= (1 << (END - START + 1))) return false;
     the int on the right is converted to unsigned int *)
  limit <- shl_int 1 (END - START + 1) ;;
  if value >=? to_uint32 limit then Ok (false, register_raw) else
  (* uint32_t mask = static_cast<uint32_t>(
       ~((0xFFFF'FFFF >> (31 - (END - START))) << START)); *)
  m <- shr_uint 0xFFFFFFFF (31 - (END - START)) ;;
  m <- shl_uint m START ;;
  let mask := to_uint32 (to_uint32 (Z.lnot m)) in
  (* register_raw &= mask; *)
  let register_raw := Z.land register_raw mask in
  (* value = value << START; *)
  value <- shl_uint value START ;;
  (* register_raw |= value; return true; *)
  let register_raw := Z.lor register_raw value in
  Ok (true, register_raw).

(** The [_WITH_PERMS] accessors put the permission test
    [static const bool allowed = static_cast<uint8_t>(PERMS) & 0b01]
    (for a getter; [0b10] for a setter) before the same bodies.  A denied
    getter executes [return false;] in a function returning [uint16_t]. *)

Definition IMPLEMENT_REGISTER_16_GET_WITH_PERMS
  (START END : Z) (PERMS : REGISTER_PERMS) (register_raw : Z) : result Z :=
  let allowed := to_bool (Z.land (to_uint8 (perms_value PERMS)) 1) in
  if negb allowed then Ok (to_uint16 (Z.b2z false)) else
  b <- shr_int register_raw START ;;
  let buffer := to_uint16 b in
  m <- shr_int 0xFFFF (15 - (END - START)) ;;
  Ok (to_uint16 (Z.land buffer m)).

Definition IMPLEMENT_REGISTER_16_SET_WITH_PERMS
  (START END : Z) (PERMS : REGISTER_PERMS) (register_raw value : Z)
  : result (bool * Z) :=
  let allowed := to_bool (Z.land (to_uint8 (perms_value PERMS)) 2) in
  if negb allowed then Ok (false, register_raw) else
  limit <- shl_int 1 (END - START + 1) ;;
  if value >=? limit then Ok (false, register_raw) else
  m <- shr_int 0xFFFF (15 - (END - START)) ;;
  m <- shl_int m START ;;
  let mask := to_uint16 (Z.lnot m) in
  let register_raw := to_uint16 (Z.land register_raw mask) in
  v <- shl_int value START ;;
  let value := to_uint16 v in
  let register_raw := to_uint16 (Z.lor register_raw value) in
  Ok (true, register_raw).

Definition IMPLEMENT_REGISTER_32_GET_WITH_PERMS
  (START END : Z) (PERMS : REGISTER_PERMS) (register_raw : Z) : result Z :=
  let allowed := to_bool (Z.land (to_uint8 (perms_value PERMS)) 1) in
  if negb allowed then Ok (to_uint16 (Z.b2z false)) else
  b <- shr_uint register_raw START ;;
  let buffer := to_uint16 b in
  m <- shr_uint 0xFFFFFFFF (31 - (END - START)) ;;
  Ok (to_uint16 (Z.land (to_uint32 buffer) m)).

Definition IMPLEMENT_REGISTER_32_SET_WITH_PERMS
  (START END : Z) (PERMS : REGISTER_PERMS) (register_raw value : Z)
  : result (bool * Z) :=
  let allowed := to_bool (Z.land (to_uint8 (perms_value PERMS)) 2) in
  if negb allowed then Ok (false, register_raw) else
  limit <- shl_int 1 (END - START + 1) ;;
  if value >=? to_uint32 limit then Ok (false, register_raw) else
  m <- shr_uint 0xFFFFFFFF (31 - (END - START)) ;;
  m <- shl_uint m START ;;
  let mask := to_uint32 (to_uint32 (Z.lnot m)) in
  let register_raw := Z.land register_raw mask in
  value <- shl_uint value START ;;
  let register_raw := Z.lor register_raw value in
  Ok (true, register_raw).

(** ** Register classes

    A [DECLARE_REGISTER_*] macro takes the class name and a flat list of
    fields, [FIELD, START, END] (and [PERMS]), and expands to a class with
    one getter and one setter per field, the three whole-register methods
    and the private member [register_raw], initialised to [0x0].  The
    depth bound of the preprocessor's [EXPAND] is not modelled. *)

Inductive register_class : Type :=
| DECLARE_REGISTER_16 (fields : list (string * Z * Z))
| DECLARE_REGISTER_32 (fields : list (string * Z * Z))
| DECLARE_REGISTER_16_WITH_PERMS (fields : list (string * Z * Z * REGISTER_PERMS))
| DECLARE_REGISTER_32_WITH_PERMS (fields : list (string * Z * Z * REGISTER_PERMS)).

(** The [static_assert]s of every expanded accessor: the class compiles. *)
Definition compiles (c : register_class) : bool :=
  match c with
  | DECLARE_REGISTER_16 fields =>
      forallb (fun '(_, START, END) => static_assert_16 START END) fields
  | DECLARE_REGISTER_32 fields =>
      forallb (fun '(_, START, END) => static_assert_32 START END) fields
  | DECLARE_REGISTER_16_WITH_PERMS fields =>
      forallb (fun '(_, START, END, _) => static_assert_16 START END) fields
  | DECLARE_REGISTER_32_WITH_PERMS fields =>
      forallb (fun '(_, START, END, _) => static_assert_32 START END) fields
  end.

(** Width in bits of [register_raw] and of the value parameters. *)
Definition raw_width (c : register_class) : Z :=
  match c with
  | DECLARE_REGISTER_16 _ | DECLARE_REGISTER_16_WITH_PERMS _ => 16
  | DECLARE_REGISTER_32 _ | DECLARE_REGISTER_32_WITH_PERMS _ => 32
  end.

(** Conversion to the class's [uint16_t] or [uint32_t]. *)
Definition to_raw (c : register_class) (z : Z) : Z :=
  match c with
  | DECLARE_REGISTER_16 _ | DECLARE_REGISTER_16_WITH_PERMS _ => to_uint16 z
  | DECLARE_REGISTER_32 _ | DECLARE_REGISTER_32_WITH_PERMS _ => to_uint32 z
  end.

(** An object of a declared class. *)
Record register : Type := mk_register {
  class_of : register_class;
  register_raw : Z
}.

(** The constructor [NAME() {}]. *)
Definition construct (c : register_class) : register :=
  mk_register c 0x0.

Definition get_register_value (r : register) : Z :=
  register_raw r.

Definition clear_register_value (r : register) : register :=
  mk_register (class_of r) 0x0.

(** The argument is converted to the parameter's type at the call. *)
Definition set_register_value (r : register) (value : Z) : register :=
  mk_register (class_of r) (to_raw (class_of r) value).

Fixpoint find_field (FIELD : string) (fields : list (string * Z * Z))
  : option (Z * Z) :=
  match fields with
  | [] => None
  | (name, START, END) :: rest =>
      if String.eqb name FIELD then Some (START, END) else find_field FIELD rest
  end.

Fixpoint find_field_with_perms (FIELD : string)
  (fields : list (string * Z * Z * REGISTER_PERMS))
  : option (Z * Z * REGISTER_PERMS) :=
  match fields with
  | [] => None
  | (name, START, END, PERMS) :: rest =>
      if String.eqb name FIELD then Some (START, END, PERMS)
      else find_field_with_perms FIELD rest
  end.

(** [r.get_FIELD()]: [None] when the class has no such member. *)
Definition get_ (FIELD : string) (r : register) : option (result Z) :=
  match class_of r with
  | DECLARE_REGISTER_16 fields =>
      match find_field FIELD fields with
      | Some (START, END) =>
          Some (IMPLEMENT_REGISTER_16_GET START END (register_raw r))
      | None => None
      end
  | DECLARE_REGISTER_32 fields =>
      match find_field FIELD fields with
      | Some (START, END) =>
          Some (IMPLEMENT_REGISTER_32_GET START END (register_raw r))
      | None => None
      end
  | DECLARE_REGISTER_16_WITH_PERMS fields =>
      match find_field_with_perms FIELD fields with
      | Some (START, END, PERMS) =>
          Some (IMPLEMENT_REGISTER_16_GET_WITH_PERMS START END PERMS (register_raw r))
      | None => None
      end
  | DECLARE_REGISTER_32_WITH_PERMS fields =>
      match find_field_with_perms FIELD fields with
      | Some (START, END, PERMS) =>
          Some (IMPLEMENT_REGISTER_32_GET_WITH_PERMS START END PERMS (register_raw r))
      | None => None
      end
  end.

(** The setter's [bool] result and the object after the call. *)
Definition commit (r : register) (c : result (bool * Z))
  : result (bool * register) :=
  p <- c ;; Ok (fst p, mk_register (class_of r) (snd p)).

(** [r.set_FIELD(value)]: [None] when the class has no such member. *)
Definition set_ (FIELD : string) (r : register) (value : Z)
  : option (result (bool * register)) :=
  match class_of r with
  | DECLARE_REGISTER_16 fields =>
      match find_field FIELD fields with
      | Some (START, END) =>
          Some (commit r (IMPLEMENT_REGISTER_16_SET START END
                            (register_raw r) (to_uint16 value)))
      | None => None
      end
  | DECLARE_REGISTER_32 fields =>
      match find_field FIELD fields with
      | Some (START, END) =>
          Some (commit r (IMPLEMENT_REGISTER_32_SET START END
                            (register_raw r) (to_uint32 value)))
      | None => None
      end
  | DECLARE_REGISTER_16_WITH_PERMS fields =>
      match find_field_with_perms FIELD fields with
      | Some (START, END, PERMS) =>
          Some (commit r (IMPLEMENT_REGISTER_16_SET_WITH_PERMS START END PERMS
                            (register_raw r) (to_uint16 value)))
      | None => None
      end
  | DECLARE_REGISTER_32_WITH_PERMS fields =>
      match find_field_with_perms FIELD fields with
      | Some (START, END, PERMS) =>
          Some (commit r (IMPLEMENT_REGISTER_32_SET_WITH_PERMS START END PERMS
                            (register_raw r) (to_uint32 value)))
      | None => None
      end
  end.

(** ** The example program's registers *)

Definition link_capabilites_register : register_class :=
  DECLARE_REGISTER_32
    [ ("max_link_speed"%string, 0, 3);
      ("max_link_width"%string, 4, 9);
      ("aspm_support"%string, 10, 11);
      ("l0s_exit_latency"%string, 12, 14);
      ("l1_exit_latency"%string, 15, 17);
      ("clock_power_management"%string, 18, 18);
      ("surprise_down_error_reporting_capable"%string, 19, 19);
      ("data_link_layer_link_active_reporting_capable"%string, 20, 20);
      ("link_bandwidth_notification_capability"%string, 21, 21);
      ("aspm_optionality_compliance"%string, 22, 22);
      ("port_number"%string, 24, 31) ].

Definition link_control_register : register_class :=
  DECLARE_REGISTER_16_WITH_PERMS
    [ ("aspm_control"%string, 0, 1, READ_WRITE);
      ("root_completion_boundary"%string, 3, 3, READ);
      ("link_disable"%string, 4, 4, READ_WRITE);
      ("retrain_link"%string, 5, 5, READ_WRITE);
      ("common_clock_configuration"%string, 6, 6, READ_WRITE);
      ("extended_sync"%string, 7, 7, READ_WRITE);
      ("enable_clock_power_management"%string, 8, 8, READ_WRITE);
      ("hardware_autonomous_width_disable"%string, 9, 9, READ_WRITE);
      ("link_bandwidth_management_interrupt_enable"%string, 10, 10, READ_WRITE);
      ("link_autonomous_bandwidth_interrupt_enable"%string, 11, 11, READ_WRITE) ].

(** The documentation's mixed-permission register. *)
Definition port_state_register : register_class :=
  DECLARE_REGISTER_16_WITH_PERMS
    [ ("link_speed"%string, 0, 3, READ_WRITE);
      ("link_width"%string, 4, 7, READ);
      ("key"%string, 8, 11, WRITE);
      ("tag"%string, 12, 15, NONE) ].

(** ** The field accessor engine as the specification words it *)

(** [(raw >> start) & field_mask], the mask having exactly
    [end - start + 1] low bits set. *)
Definition extract_spec (raw start end_ : Z) : Z :=
  Z.land (Z.shiftr raw start) (Z.ones (end_ - start + 1)).

(** Clear bits [start..end] of [raw] and OR in [value << start]. *)
Definition inject_spec (raw start end_ value : Z) : Z :=
  Z.lor (Z.ldiff raw (Z.shiftl (Z.ones (end_ - start + 1)) start))
        (Z.shiftl value start).

(** Width-indexed view of the four accessors without permissions. *)
Inductive width : Type := W16 | W32.

Definition bits (w : width) : Z :=
  match w with W16 => 16 | W32 => 32 end.

Definition static_assert (w : width) : Z -> Z -> bool :=
  match w with W16 => static_assert_16 | W32 => static_assert_32 end.

Definition IMPLEMENT_REGISTER_GET (w : width) : Z -> Z -> Z -> result Z :=
  match w with
  | W16 => IMPLEMENT_REGISTER_16_GET
  | W32 => IMPLEMENT_REGISTER_32_GET
  end.

Definition IMPLEMENT_REGISTER_SET (w : width)
  : Z -> Z -> Z -> Z -> result (bool * Z) :=
  match w with
  | W16 => IMPLEMENT_REGISTER_16_SET
  | W32 => IMPLEMENT_REGISTER_32_SET
  end.

Definition IMPLEMENT_REGISTER_SET_WITH_PERMS (w : width)
  : Z -> Z -> REGISTER_PERMS -> Z -> Z -> result (bool * Z) :=
  match w with
  | W16 => IMPLEMENT_REGISTER_16_SET_WITH_PERMS
  | W32 => IMPLEMENT_REGISTER_32_SET_WITH_PERMS
  end.

(** The permission a permission-checked class gives a field. *)
Definition perms_of (FIELD : string) (c : register_class)
  : option REGISTER_PERMS :=
  match c with
  | DECLARE_REGISTER_16_WITH_PERMS fields
  | DECLARE_REGISTER_32_WITH_PERMS fields =>
      option_map snd (find_field_with_perms FIELD fields)
  | _ => None
  end.

(** The bit range a class gives a field. *)
Definition layout_of (FIELD : string) (c : register_class) : option (Z * Z) :=
  match c with
  | DECLARE_REGISTER_16 fields | DECLARE_REGISTER_32 fields =>
      find_field FIELD fields
  | DECLARE_REGISTER_16_WITH_PERMS fields
  | DECLARE_REGISTER_32_WITH_PERMS fields =>
      option_map fst (find_field_with_perms FIELD fields)
  end.

(** Whether the class was declared by a [_WITH_PERMS] macro. *)
Definition with_perms (c : register_class) : bool :=
  match c with
  | DECLARE_REGISTER_16_WITH_PERMS _ | DECLARE_REGISTER_32_WITH_PERMS _ => true
  | _ => false
  end.

(** A 32-bit permission-checked register whose single field takes all
    32 bits, [DECLARE_REGISTER_32_WITH_PERMS(NAME, all, 0, 31,
    REGISTER_PERMS::READ_WRITE)]. *)
Definition full_width_register : register_class :=
  DECLARE_REGISTER_32_WITH_PERMS [ ("all"%string, 0, 31, READ_WRITE) ].

(** * Properties *)

(** ** Conversions and shifts *)

Section Arithmetic.

Lemma to_uint16_small z : 0 <= z < 2 ^ 16 -> to_uint16 z = z.
Proof. intros H. unfold to_uint16. now apply Z.mod_small. Qed.

Lemma to_uint32_small z : 0 <= z < 2 ^ 32 -> to_uint32 z = z.
Proof. intros H. unfold to_uint32. now apply Z.mod_small. Qed.

Lemma to_int_small z : 0 <= z < 2 ^ 31 -> to_int z = z.
Proof.
  intros H. unfold to_int. rewrite Z.mod_small by lia.
  destruct (Z.ltb_spec z (2 ^ 31)); lia.
Qed.

Lemma bad_count_false n : 0 <= n < 32 -> bad_count n = false.
Proof. unfold bad_count, int_width. lia. Qed.

Lemma shr_int_ok a n : 0 <= n < 32 -> shr_int a n = Ok (Z.shiftr a n).
Proof. intros H. unfold shr_int. now rewrite bad_count_false. Qed.

Lemma shr_uint_ok a n : 0 <= n < 32 -> shr_uint a n = Ok (Z.shiftr a n).
Proof. intros H. unfold shr_uint. now rewrite bad_count_false. Qed.

Lemma shl_uint_ok a n :
  0 <= n < 32 -> shl_uint a n = Ok (to_uint32 (Z.shiftl a n)).
Proof. intros H. unfold shl_uint. now rewrite bad_count_false. Qed.

Lemma shl_int_ok a n :
  0 <= n < 32 -> 0 <= a -> a * 2 ^ n < 2 ^ 32 ->
  shl_int a n = Ok (to_int (Z.shiftl a n)).
Proof.
  intros Hn Ha Hfit. unfold shl_int. rewrite bad_count_false by assumption.
  replace ((a <? 0) || (2 ^ 32 <=? a * 2 ^ n)) with false by lia.
  reflexivity.
Qed.

Lemma pow2_pos n : 0 <= n -> 0 < 2 ^ n.
Proof. intros. apply Z.pow_pos_nonneg; lia. Qed.

Lemma pow2_le n m : 0 <= n <= m -> 2 ^ n <= 2 ^ m.
Proof. intros. apply Z.pow_le_mono_r; lia. Qed.

(** A value below [2^n] has no bit at or above position [n]. *)
Lemma testbit_high z n i :
  0 <= n -> 0 <= z < 2 ^ n -> n <= i -> Z.testbit z i = false.
Proof.
  intros Hn Hz Hi. rewrite <- (Z.mod_small z (2 ^ n)) by assumption.
  apply Z.mod_pow2_bits_high. lia.
Qed.

(** [0xFF..F >> (W-1-k)] has exactly [k+1] low bits set. *)
Lemma ones_shiftr W k :
  0 <= k < W -> Z.shiftr (Z.ones W) (W - 1 - k) = Z.ones (k + 1).
Proof.
  intros H. apply Z.bits_inj'. intros i Hi.
  rewrite Z.shiftr_spec by assumption.
  destruct (Z.lt_ge_cases i (k + 1)).
  - rewrite !Z.ones_spec_low by lia. reflexivity.
  - rewrite !Z.ones_spec_high by lia. reflexivity.
Qed.

Lemma mask16 k : 0 <= k < 16 -> Z.shiftr 0xFFFF (15 - k) = Z.ones (k + 1).
Proof. intros H. exact (ones_shiftr 16 k H). Qed.

Lemma mask32 k : 0 <= k < 32 -> Z.shiftr 0xFFFFFFFF (31 - k) = Z.ones (k + 1).
Proof. intros H. exact (ones_shiftr 32 k H). Qed.

Lemma ones_bounds n : 0 <= n -> 0 <= Z.ones n < 2 ^ n.
Proof. intros H. rewrite Z.ones_equiv. pose proof (pow2_pos n H). lia. Qed.

End Arithmetic.

(** ** The bit arithmetic of [extract_spec] and [inject_spec] *)

Section Bits.

Lemma testbit_mod_pow2 a n i :
  0 <= n -> Z.testbit (a mod 2 ^ n) i = (i <? n) && Z.testbit a i.
Proof.
  intros Hn. destruct (Z.ltb_spec i n).
  - now rewrite Z.mod_pow2_bits_low.
  - now rewrite Z.mod_pow2_bits_high by lia.
Qed.

(** A non-negative integer all of whose bits from [n] up are clear. *)
Lemma bounded_by_bits a n :
  0 <= n -> 0 <= a ->
  (forall i, n <= i -> Z.testbit a i = false) -> 0 <= a < 2 ^ n.
Proof.
  intros Hn Ha Hbits.
  assert (E : a mod 2 ^ n = a).
  { apply Z.bits_inj'. intros i Hi. rewrite testbit_mod_pow2 by assumption.
    destruct (Z.ltb_spec i n); [reflexivity|].
    now rewrite Hbits. }
  rewrite <- E. apply Z.mod_pos_bound. now apply pow2_pos.
Qed.

Variables (raw start end_ value : Z).
Hypothesis Hrange : 0 <= start <= end_.
Hypothesis Hvalue : 0 <= value < 2 ^ (end_ - start + 1).

Lemma inject_spec_bit i :
  0 <= i ->
  Z.testbit (inject_spec raw start end_ value) i =
    if (start <=? i) && (i <=? end_)
    then Z.testbit value (i - start)
    else Z.testbit raw i.
Proof.
  intros Hi. unfold inject_spec.
  rewrite Z.lor_spec, Z.ldiff_spec, !Z.shiftl_spec by assumption.
  destruct (Z.leb_spec start i); simpl.
  - destruct (Z.leb_spec i end_); simpl.
    + rewrite Z.ones_spec_low by lia. now rewrite andb_false_r.
    + rewrite Z.ones_spec_high by lia.
      rewrite (testbit_high value (end_ - start + 1)) by lia.
      now rewrite andb_true_r, orb_false_r.
  - rewrite !(Z.testbit_neg_r _ (i - start)) by lia.
    now rewrite andb_true_r, orb_false_r.
Qed.

(** Bits outside [start..end] are those of [raw]. *)
Lemma inject_spec_frame i :
  i < start \/ end_ < i ->
  Z.testbit (inject_spec raw start end_ value) i = Z.testbit raw i.
Proof.
  intros Hout. destruct (Z.lt_ge_cases i 0).
  - now rewrite !Z.testbit_neg_r.
  - rewrite inject_spec_bit by assumption.
    replace ((start <=? i) && (i <=? end_)) with false by lia.
    reflexivity.
Qed.

(** Extraction after injection gives the injected value. *)
Lemma extract_inject_spec :
  extract_spec (inject_spec raw start end_ value) start end_ = value.
Proof.
  unfold extract_spec. apply Z.bits_inj'. intros i Hi.
  rewrite Z.land_spec, Z.shiftr_spec by assumption.
  rewrite inject_spec_bit by lia.
  destruct (Z.lt_ge_cases i (end_ - start + 1)).
  - rewrite Z.ones_spec_low by lia.
    replace ((start <=? i + start) && (i + start <=? end_)) with true by lia.
    rewrite andb_true_r. f_equal. lia.
  - rewrite Z.ones_spec_high by lia.
    rewrite (testbit_high value (end_ - start + 1) i) by lia.
    now rewrite andb_false_r.
Qed.

Lemma inject_spec_nonneg : 0 <= raw -> 0 <= inject_spec raw start end_ value.
Proof.
  intros Hraw. unfold inject_spec.
  apply Z.lor_nonneg. split.
  - apply Z.ldiff_nonneg. now left.
  - apply Z.shiftl_nonneg. lia.
Qed.

Lemma inject_spec_bounds W :
  end_ < W -> 0 <= raw < 2 ^ W ->
  0 <= inject_spec raw start end_ value < 2 ^ W.
Proof.
  intros HW Hraw. apply bounded_by_bits; [lia | apply inject_spec_nonneg; lia |].
  intros i Hi. rewrite inject_spec_frame by lia.
  apply (testbit_high raw W); lia.
Qed.

Lemma extract_spec_bounds :
  0 <= raw -> 0 <= extract_spec raw start end_ < 2 ^ (end_ - start + 1).
Proof.
  intros Hraw. unfold extract_spec.
  rewrite Z.land_ones by lia. apply Z.mod_pos_bound. apply pow2_pos. lia.
Qed.

End Bits.

(** ** What each accessor computes *)

Section Accessors.

Lemma static_assert_16_range START END :
  static_assert_16 START END = true -> 0 <= START <= END /\ END < 16.
Proof. unfold static_assert_16. lia. Qed.

Lemma static_assert_32_range START END :
  static_assert_32 START END = true -> 0 <= START <= END /\ END < 32.
Proof. unfold static_assert_32. lia. Qed.

Lemma static_assert_range w START END :
  static_assert w START END = true -> 0 <= START <= END /\ END < bits w.
Proof.
  destruct w; simpl; [apply static_assert_16_range | apply static_assert_32_range].
Qed.

Lemma shiftr_bounds a n s :
  0 <= n -> 0 <= s -> 0 <= a < 2 ^ n -> 0 <= Z.shiftr a s < 2 ^ n.
Proof.
  intros Hn Hs Ha. apply bounded_by_bits; [assumption | |].
  - apply Z.shiftr_nonneg. lia.
  - intros i Hi. rewrite Z.shiftr_spec by lia.
    apply (testbit_high a n); lia.
Qed.

Lemma to_uint32_to_int z : to_uint32 (to_int z) = to_uint32 z.
Proof.
  unfold to_uint32, to_int.
  destruct (z mod 2 ^ 32 <? 2 ^ 31).
  - apply Z.mod_mod. lia.
  - rewrite <- (Z.mul_1_l (2 ^ 32)) at 2.
    rewrite <- Z.add_opp_r, <- Z.mul_opp_l, Z.mod_add by lia.
    apply Z.mod_mod. lia.
Qed.

Variables (START END register_raw : Z).

(** The 16-bit getter is the specified extraction. *)
Lemma get_16_spec :
  static_assert_16 START END = true -> 0 <= register_raw < 2 ^ 16 ->
  IMPLEMENT_REGISTER_16_GET START END register_raw
  = Ok (extract_spec register_raw START END).
Proof.
  intros Hf Hraw. apply static_assert_16_range in Hf.
  unfold IMPLEMENT_REGISTER_16_GET.
  rewrite !shr_int_ok by lia. cbn [bind].
  rewrite mask16 by lia.
  pose proof (shiftr_bounds register_raw 16 START ltac:(lia) ltac:(lia) Hraw) as Hb.
  rewrite (to_uint16_small (Z.shiftr _ _)) by assumption.
  fold (extract_spec register_raw START END).
  pose proof (extract_spec_bounds register_raw START END ltac:(lia)) as He.
  pose proof (pow2_le (END - START + 1) 16 ltac:(lia)).
  rewrite to_uint16_small by lia. reflexivity.
Qed.

(** The 32-bit getter is the specified extraction cut to 16 bits. *)
Lemma get_32_spec :
  static_assert_32 START END = true -> 0 <= register_raw < 2 ^ 32 ->
  IMPLEMENT_REGISTER_32_GET START END register_raw
  = Ok (to_uint16 (extract_spec register_raw START END)).
Proof.
  intros Hf Hraw. apply static_assert_32_range in Hf.
  unfold IMPLEMENT_REGISTER_32_GET.
  rewrite !shr_uint_ok by lia. cbn [bind].
  rewrite mask32 by lia.
  assert (Hb : 0 <= to_uint16 (Z.shiftr register_raw START) < 2 ^ 16)
    by (apply Z.mod_pos_bound; lia).
  rewrite (to_uint32_small (to_uint16 _)) by lia.
  f_equal. unfold extract_spec, to_uint16.
  apply Z.bits_inj'. intros i Hi.
  rewrite !testbit_mod_pow2, !Z.land_spec, testbit_mod_pow2 by lia.
  destruct (i <? 16); cbn [andb]; reflexivity.
Qed.

Lemma get_32_spec_narrow :
  static_assert_32 START END = true -> 0 <= register_raw < 2 ^ 32 ->
  END - START < 16 ->
  IMPLEMENT_REGISTER_32_GET START END register_raw
  = Ok (extract_spec register_raw START END).
Proof.
  intros Hf Hraw Hw. rewrite get_32_spec by assumption.
  apply static_assert_32_range in Hf.
  pose proof (extract_spec_bounds register_raw START END ltac:(lia)) as He.
  pose proof (pow2_le (END - START + 1) 16 ltac:(lia)).
  rewrite to_uint16_small by lia. reflexivity.
Qed.

Variable value : Z.

(** The 16-bit setter rejects a value of more than the field's bits and
    otherwise is the specified injection. *)
Lemma set_16_spec :
  static_assert_16 START END = true ->
  0 <= register_raw < 2 ^ 16 -> 0 <= value < 2 ^ 16 ->
  IMPLEMENT_REGISTER_16_SET START END register_raw value
  = Ok (if value >=? 2 ^ (END - START + 1)
        then (false, register_raw)
        else (true, inject_spec register_raw START END value)).
Proof.
  intros Hf Hraw Hv. apply static_assert_16_range in Hf.
  unfold IMPLEMENT_REGISTER_16_SET.
  pose proof (pow2_le (END - START + 1) 16 ltac:(lia)) as Hw.
  pose proof (pow2_pos (END - START + 1) ltac:(lia)) as Hw0.
  rewrite (shl_int_ok 1) by lia. cbn [bind].
  rewrite Z.shiftl_1_l, to_int_small by lia.
  destruct (Z.geb_spec value (2 ^ (END - START + 1))) as [Hge|Hlt];
    [reflexivity|].
  rewrite shr_int_ok by lia. cbn [bind]. rewrite mask16 by lia.
  pose proof (ones_bounds (END - START + 1) ltac:(lia)) as Ho.
  assert (Hsh : forall x, 0 <= x < 2 ^ (END - START + 1) ->
                          0 <= x * 2 ^ START < 2 ^ 16).
  { intros x Hx. pose proof (pow2_pos START ltac:(lia)).
    assert (2 ^ (END - START + 1) * 2 ^ START <= 2 ^ 16).
    { rewrite <- Z.pow_add_r by lia. apply pow2_le. lia. }
    nia. }
  pose proof (Hsh _ Ho) as Hom. pose proof (Hsh value ltac:(lia)) as Hvm.
  rewrite !shl_int_ok by lia. cbn [bind].
  rewrite !Z.shiftl_mul_pow2, !to_int_small by lia.
  rewrite <- !Z.shiftl_mul_pow2 by lia.
  f_equal. f_equal. unfold inject_spec, to_uint16.
  apply Z.bits_inj'. intros i Hi.
  rewrite !testbit_mod_pow2 by lia.
  rewrite !Z.lor_spec, !testbit_mod_pow2, !Z.land_spec, !testbit_mod_pow2 by lia.
  rewrite Z.ldiff_spec, Z.lnot_spec by assumption.
  destruct (Z.ltb_spec i 16); cbn [andb orb negb]; [reflexivity|].
  rewrite (testbit_high register_raw 16 i) by lia.
  rewrite (Z.shiftl_mul_pow2 value) by lia.
  rewrite (testbit_high (value * 2 ^ START) 16 i) by lia.
  reflexivity.
Qed.

(** So does the 32-bit setter, for a field of fewer than 32 bits. *)
Lemma set_32_spec :
  static_assert_32 START END = true -> END - START < 31 ->
  0 <= register_raw < 2 ^ 32 -> 0 <= value < 2 ^ 32 ->
  IMPLEMENT_REGISTER_32_SET START END register_raw value
  = Ok (if value >=? 2 ^ (END - START + 1)
        then (false, register_raw)
        else (true, inject_spec register_raw START END value)).
Proof.
  intros Hf Hnarrow Hraw Hv. apply static_assert_32_range in Hf.
  unfold IMPLEMENT_REGISTER_32_SET.
  pose proof (pow2_le (END - START + 1) 31 ltac:(lia)) as Hw.
  pose proof (pow2_pos (END - START + 1) ltac:(lia)) as Hw0.
  rewrite (shl_int_ok 1) by lia. cbn [bind].
  rewrite to_uint32_to_int, Z.shiftl_1_l, to_uint32_small by lia.
  destruct (Z.geb_spec value (2 ^ (END - START + 1))) as [Hge|Hlt];
    [reflexivity|].
  rewrite shr_uint_ok by lia. cbn [bind]. rewrite mask32 by lia.
  rewrite !shl_uint_ok by lia. cbn [bind].
  f_equal. f_equal. unfold inject_spec, to_uint32.
  assert (Hvm : 0 <= value * 2 ^ START < 2 ^ 32).
  { pose proof (pow2_pos START ltac:(lia)).
    assert (2 ^ (END - START + 1) * 2 ^ START <= 2 ^ 32).
    { rewrite <- Z.pow_add_r by lia. apply pow2_le. lia. }
    nia. }
  apply Z.bits_inj'. intros i Hi.
  rewrite !Z.lor_spec, !Z.land_spec, !testbit_mod_pow2 by lia.
  rewrite Z.ldiff_spec, Z.lnot_spec, testbit_mod_pow2 by lia.
  destruct (Z.ltb_spec i 32); cbn [andb orb negb]; [reflexivity|].
  rewrite (testbit_high register_raw 32 i) by lia.
  rewrite (Z.shiftl_mul_pow2 value) by lia.
  rewrite (testbit_high (value * 2 ^ START) 32 i) by lia.
  reflexivity.
Qed.

(** For the field of all 32 bits the setter's range check shifts the
    [int] 1 by 32. *)
Lemma set_32_full_width :
  END - START = 31 ->
  IMPLEMENT_REGISTER_32_SET START END register_raw value
  = UB (ShiftCount 32 32).
Proof.
  intros Hfull. unfold IMPLEMENT_REGISTER_32_SET.
  replace (END - START + 1) with 32 by lia. reflexivity.
Qed.

End Accessors.

(** ** Permission gates *)

Section Permissions.

Variables (START END register_raw : Z) (PERMS : REGISTER_PERMS).

Lemma get_16_with_perms_allowed :
  PERMS = READ \/ PERMS = READ_WRITE ->
  IMPLEMENT_REGISTER_16_GET_WITH_PERMS START END PERMS register_raw
  = IMPLEMENT_REGISTER_16_GET START END register_raw.
Proof. intros [-> | ->]; reflexivity. Qed.

Lemma get_32_with_perms_allowed :
  PERMS = READ \/ PERMS = READ_WRITE ->
  IMPLEMENT_REGISTER_32_GET_WITH_PERMS START END PERMS register_raw
  = IMPLEMENT_REGISTER_32_GET START END register_raw.
Proof. intros [-> | ->]; reflexivity. Qed.

Lemma get_16_with_perms_denied :
  PERMS = WRITE \/ PERMS = NONE ->
  IMPLEMENT_REGISTER_16_GET_WITH_PERMS START END PERMS register_raw = Ok 0.
Proof. intros [-> | ->]; reflexivity. Qed.

Lemma get_32_with_perms_denied :
  PERMS = WRITE \/ PERMS = NONE ->
  IMPLEMENT_REGISTER_32_GET_WITH_PERMS START END PERMS register_raw = Ok 0.
Proof. intros [-> | ->]; reflexivity. Qed.

Variable value : Z.

Lemma set_16_with_perms_allowed :
  PERMS = WRITE \/ PERMS = READ_WRITE ->
  IMPLEMENT_REGISTER_16_SET_WITH_PERMS START END PERMS register_raw value
  = IMPLEMENT_REGISTER_16_SET START END register_raw value.
Proof. intros [-> | ->]; reflexivity. Qed.

Lemma set_32_with_perms_allowed :
  PERMS = WRITE \/ PERMS = READ_WRITE ->
  IMPLEMENT_REGISTER_32_SET_WITH_PERMS START END PERMS register_raw value
  = IMPLEMENT_REGISTER_32_SET START END register_raw value.
Proof. intros [-> | ->]; reflexivity. Qed.

Lemma set_16_with_perms_denied :
  PERMS = READ \/ PERMS = NONE ->
  IMPLEMENT_REGISTER_16_SET_WITH_PERMS START END PERMS register_raw value
  = Ok (false, register_raw).
Proof. intros [-> | ->]; reflexivity. Qed.

Lemma set_32_with_perms_denied :
  PERMS = READ \/ PERMS = NONE ->
  IMPLEMENT_REGISTER_32_SET_WITH_PERMS START END PERMS register_raw value
  = Ok (false, register_raw).
Proof. intros [-> | ->]; reflexivity. Qed.

End Permissions.

(** ** Fields of a declared class *)

Section Lookup.

Lemma find_field_compiles_16 FIELD fields START END :
  forallb (fun '(_, START, END) => static_assert_16 START END) fields = true ->
  find_field FIELD fields = Some (START, END) ->
  static_assert_16 START END = true.
Proof.
  induction fields as [|[[name s] e] rest IH]; simpl; [discriminate|].
  intros Hall Hfind. apply andb_prop in Hall as [Hhd Htl].
  destruct (String.eqb name FIELD).
  - now inversion Hfind; subst.
  - now apply IH.
Qed.

Lemma find_field_compiles_32 FIELD fields START END :
  forallb (fun '(_, START, END) => static_assert_32 START END) fields = true ->
  find_field FIELD fields = Some (START, END) ->
  static_assert_32 START END = true.
Proof.
  induction fields as [|[[name s] e] rest IH]; simpl; [discriminate|].
  intros Hall Hfind. apply andb_prop in Hall as [Hhd Htl].
  destruct (String.eqb name FIELD).
  - now inversion Hfind; subst.
  - now apply IH.
Qed.

Lemma find_field_with_perms_compiles_16 FIELD fields START END PERMS :
  forallb (fun '(_, START, END, _) => static_assert_16 START END) fields = true ->
  find_field_with_perms FIELD fields = Some (START, END, PERMS) ->
  static_assert_16 START END = true.
Proof.
  induction fields as [|[[[name s] e] p] rest IH]; simpl; [discriminate|].
  intros Hall Hfind. apply andb_prop in Hall as [Hhd Htl].
  destruct (String.eqb name FIELD).
  - now inversion Hfind; subst.
  - now apply IH.
Qed.

Lemma find_field_with_perms_compiles_32 FIELD fields START END PERMS :
  forallb (fun '(_, START, END, _) => static_assert_32 START END) fields = true ->
  find_field_with_perms FIELD fields = Some (START, END, PERMS) ->
  static_assert_32 START END = true.
Proof.
  induction fields as [|[[[name s] e] p] rest IH]; simpl; [discriminate|].
  intros Hall Hfind. apply andb_prop in Hall as [Hhd Htl].
  destruct (String.eqb name FIELD).
  - now inversion Hfind; subst.
  - now apply IH.
Qed.

End Lookup.

(** ** Round trip of the per-field accessors *)

Section RoundTrip.

Variables (START END register_raw value : Z).
Hypothesis Hvalue : 0 <= value < 2 ^ (END - START + 1).

(** 16-bit registers: the getter returns what the setter stored. *)
Lemma get_set_16 raw' :
  static_assert_16 START END = true -> 0 <= register_raw < 2 ^ 16 ->
  IMPLEMENT_REGISTER_16_SET START END register_raw value = Ok (true, raw') ->
  IMPLEMENT_REGISTER_16_GET START END raw' = Ok value.
Proof.
  intros Hf Hraw Hset.
  pose proof (static_assert_16_range _ _ Hf) as Hr.
  pose proof (pow2_le (END - START + 1) 16 ltac:(lia)) as Hw.
  rewrite set_16_spec in Hset by (assumption || lia).
  destruct (Z.geb_spec value (2 ^ (END - START + 1))); [discriminate|].
  injection Hset as <-.
  rewrite get_16_spec by
    (assumption || (apply inject_spec_bounds; assumption || lia)).
  rewrite extract_inject_spec by (assumption || lia). reflexivity.
Qed.

(** 32-bit registers: the getter returns the low 16 bits of what the
    setter stored. *)
Lemma get_set_32 raw' :
  static_assert_32 START END = true -> 0 <= register_raw < 2 ^ 32 ->
  IMPLEMENT_REGISTER_32_SET START END register_raw value = Ok (true, raw') ->
  IMPLEMENT_REGISTER_32_GET START END raw' = Ok (to_uint16 value).
Proof.
  intros Hf Hraw Hset.
  pose proof (static_assert_32_range _ _ Hf) as Hr.
  destruct (Z.lt_ge_cases (END - START) 31) as [Hnarrow|Hfull].
  - pose proof (pow2_le (END - START + 1) 32 ltac:(lia)) as Hw.
    rewrite set_32_spec in Hset by (assumption || lia).
    destruct (Z.geb_spec value (2 ^ (END - START + 1))); [discriminate|].
    injection Hset as <-.
    rewrite get_32_spec by
      (assumption || (apply inject_spec_bounds; assumption || lia)).
    rewrite extract_inject_spec by (assumption || lia). reflexivity.
  - rewrite set_32_full_width in Hset by lia. discriminate.
Qed.

(** Hence the 32-bit round trip is exact for fields of up to 16 bits. *)
Lemma get_set_32_narrow raw' :
  static_assert_32 START END = true -> 0 <= register_raw < 2 ^ 32 ->
  END - START < 16 ->
  IMPLEMENT_REGISTER_32_SET START END register_raw value = Ok (true, raw') ->
  IMPLEMENT_REGISTER_32_GET START END raw' = Ok value.
Proof.
  intros Hf Hraw Hw Hset. rewrite (get_set_32 raw') by assumption.
  pose proof (static_assert_32_range _ _ Hf) as Hr.
  pose proof (pow2_le (END - START + 1) 16 ltac:(lia)).
  rewrite to_uint16_small by lia. reflexivity.
Qed.

End RoundTrip.

(** ** Where the shifts are defined *)

(** Under the [static_assert]s every shift of the 16-bit accessors and of
    the 32-bit getter has a count below the operand's width, and so has
    every shift of the 32-bit setter for a field of fewer than 32 bits. *)
Lemma shifts_defined (w : width) (START END register_raw value : Z) :
  static_assert w START END = true ->
  0 <= register_raw < 2 ^ bits w -> 0 <= value < 2 ^ bits w ->
  (exists x, IMPLEMENT_REGISTER_GET w START END register_raw = Ok x) /\
  (END - START + 1 < 32 ->
   exists y, IMPLEMENT_REGISTER_SET w START END register_raw value = Ok y).
Proof.
  intros Hf Hraw Hv. destruct w; cbn [bits static_assert] in *;
    cbn [IMPLEMENT_REGISTER_GET IMPLEMENT_REGISTER_SET].
  - split.
    + eexists. now apply get_16_spec.
    + intros _. eexists. now apply set_16_spec.
  - split.
    + eexists. now apply get_32_spec.
    + intros Hnarrow. eexists. apply set_32_spec; assumption || lia.
Qed.

(** * Field accessor engine *)

(** C1 (fails on the 32-bit getter).  In a 32-bit register with a field at
    bits 0..16, storing 65536 (which fits the field's 17 bits) succeeds
    and leaves 65536 in the raw value, but the getter, whose buffer and
    result are [uint16_t], then returns 0 rather than 65536. *)
Theorem get_after_set_32_wide_field :
  static_assert W32 0 16 = true /\
  IMPLEMENT_REGISTER_SET W32 0 16 0 65536 = Ok (true, 65536) /\
  IMPLEMENT_REGISTER_GET W32 0 16 65536 = Ok 0.
Proof. repeat split. Qed.

(** C2 (fails on the 32-bit getter).  For the field at bits 0..31 of a
    32-bit register holding 0xDEADBEEF the specified extraction
    [(raw >> start) & mask] is 0xDEADBEEF, while the getter returns
    0xBEEF: the value is cut to the 16 bits of [uint16_t]. *)
Theorem get_32_full_width_truncated :
  static_assert W32 0 31 = true /\
  extract_spec 0xDEADBEEF 0 31 = 0xDEADBEEF /\
  IMPLEMENT_REGISTER_GET W32 0 31 0xDEADBEEF = Ok 0xBEEF.
Proof. repeat split. Qed.

(** A setter with permissions either is denied, returning [false] with
    the raw value it was given, or is the setter without permissions. *)
Lemma set_with_perms_cases
  (w : width) (START END : Z) (PERMS : REGISTER_PERMS) (register_raw value : Z) :
  IMPLEMENT_REGISTER_SET_WITH_PERMS w START END PERMS register_raw value
  = Ok (false, register_raw) \/
  IMPLEMENT_REGISTER_SET_WITH_PERMS w START END PERMS register_raw value
  = IMPLEMENT_REGISTER_SET w START END register_raw value.
Proof.
  destruct w, PERMS; (left; reflexivity) || (right; reflexivity).
Qed.

Lemma set_changes_only_field
  (w : width) (START END register_raw value raw' : Z) :
  static_assert w START END = true ->
  0 <= register_raw < 2 ^ bits w ->
  0 <= value < 2 ^ (END - START + 1) ->
  IMPLEMENT_REGISTER_SET w START END register_raw value = Ok (true, raw') ->
  forall i, i < START \/ END < i -> Z.testbit raw' i = Z.testbit register_raw i.
Proof.
  intros Hf Hraw Hv Hset i Hout.
  pose proof (static_assert_range _ _ _ Hf) as Hr.
  destruct w; cbn [bits static_assert IMPLEMENT_REGISTER_SET] in *.
  - pose proof (pow2_le (END - START + 1) 16 ltac:(lia)) as Hw.
    rewrite set_16_spec in Hset by (assumption || lia).
    destruct (Z.geb_spec value (2 ^ (END - START + 1))); [discriminate|].
    injection Hset as <-. apply inject_spec_frame; assumption || lia.
  - destruct (Z.lt_ge_cases (END - START) 31) as [Hnarrow|Hfull].
    + pose proof (pow2_le (END - START + 1) 32 ltac:(lia)) as Hw.
      rewrite set_32_spec in Hset by (assumption || lia).
      destruct (Z.geb_spec value (2 ^ (END - START + 1))); [discriminate|].
      injection Hset as <-. apply inject_spec_frame; assumption || lia.
    + rewrite set_32_full_width in Hset by lia. discriminate.
Qed.

Lemma set_fails_on_overflow (w : width) (START END register_raw value : Z) :
  static_assert w START END = true ->
  0 <= register_raw < 2 ^ bits w ->
  0 <= value < 2 ^ bits w ->
  2 ^ (END - START + 1) <= value ->
  IMPLEMENT_REGISTER_SET w START END register_raw value
  = Ok (false, register_raw).
Proof.
  intros Hf Hraw Hv Hover.
  pose proof (static_assert_range _ _ _ Hf) as Hr.
  destruct w; cbn [bits static_assert IMPLEMENT_REGISTER_SET] in *.
  - rewrite set_16_spec by assumption.
    destruct (Z.geb_spec value (2 ^ (END - START + 1))); [reflexivity|lia].
  - destruct (Z.lt_ge_cases (END - START) 31) as [Hnarrow|Hfull].
    + rewrite set_32_spec by assumption.
      destruct (Z.geb_spec value (2 ^ (END - START + 1))); [reflexivity|lia].
    + replace (END - START + 1) with 32 in Hover by lia. lia.
Qed.

(** C3.  For either width, a field within the register, a value that fits
    the field and any raw value: when the per-field set (without
    permissions, or with any permission) succeeds, every bit of the raw
    value outside [START..END] is as it was before. *)
Theorem set_frame (w : width) (START END register_raw value raw' : Z) :
  static_assert w START END = true ->
  0 <= register_raw < 2 ^ bits w ->
  0 <= value < 2 ^ (END - START + 1) ->
  IMPLEMENT_REGISTER_SET w START END register_raw value = Ok (true, raw') \/
  (exists PERMS,
     IMPLEMENT_REGISTER_SET_WITH_PERMS w START END PERMS register_raw value
     = Ok (true, raw')) ->
  forall i, i < START \/ END < i -> Z.testbit raw' i = Z.testbit register_raw i.
Proof.
  intros Hf Hraw Hv [Hset | [PERMS Hset]].
  - now apply set_changes_only_field with (w := w) (value := value).
  - destruct (set_with_perms_cases w START END PERMS register_raw value)
      as [Hdenied | Hsame].
    + rewrite Hdenied in Hset. discriminate.
    + rewrite Hsame in Hset.
      now apply set_changes_only_field with (w := w) (value := value).
Qed.

Lemma set_frame_witness :
  static_assert W32 24 31 = true /\
  0 <= 0xDEADBEEF < 2 ^ bits W32 /\
  0 <= 0x12 < 2 ^ (31 - 24 + 1) /\
  IMPLEMENT_REGISTER_SET W32 24 31 0xDEADBEEF 0x12 = Ok (true, 0x12ADBEEF) /\
  forall i, i < 24 \/ 31 < i ->
            Z.testbit 0x12ADBEEF i = Z.testbit 0xDEADBEEF i.
Proof.
  split; [reflexivity|]. split; [simpl; lia|]. split; [simpl; lia|].
  split; [reflexivity|].
  apply (set_frame W32 24 31 0xDEADBEEF 0x12 0x12ADBEEF);
    [reflexivity | simpl; lia | simpl; lia | left; reflexivity].
Defined.

(** C4.  For either width, a field within the register and a value of the
    parameter's type that does not fit the field's [END - START + 1]
    bits: the per-field set (without permissions, or with any permission)
    returns [false] and the raw value is the one it was called with. *)
Theorem set_rejects_overflow (w : width) (START END register_raw value : Z) :
  static_assert w START END = true ->
  0 <= register_raw < 2 ^ bits w ->
  0 <= value < 2 ^ bits w ->
  2 ^ (END - START + 1) <= value ->
  IMPLEMENT_REGISTER_SET w START END register_raw value
  = Ok (false, register_raw) /\
  forall PERMS,
    IMPLEMENT_REGISTER_SET_WITH_PERMS w START END PERMS register_raw value
    = Ok (false, register_raw).
Proof.
  intros Hf Hraw Hv Hover.
  pose proof (set_fails_on_overflow w START END register_raw value
                Hf Hraw Hv Hover) as Hfail.
  split; [exact Hfail|]. intros PERMS.
  destruct (set_with_perms_cases w START END PERMS register_raw value)
    as [Hdenied | Hsame]; [exact Hdenied | now rewrite Hsame].
Qed.

Lemma set_rejects_overflow_witness :
  static_assert W32 1 31 = true /\
  0 <= 0xDEADBEEF < 2 ^ bits W32 /\
  0 <= 0x80000000 < 2 ^ bits W32 /\
  2 ^ (31 - 1 + 1) <= 0x80000000 /\
  IMPLEMENT_REGISTER_SET W32 1 31 0xDEADBEEF 0x80000000
  = Ok (false, 0xDEADBEEF) /\
  forall PERMS,
    IMPLEMENT_REGISTER_SET_WITH_PERMS W32 1 31 PERMS 0xDEADBEEF 0x80000000
    = Ok (false, 0xDEADBEEF).
Proof.
  split; [reflexivity|]. split; [simpl; lia|]. split; [simpl; lia|].
  split; [simpl; lia|].
  apply (set_rejects_overflow W32 1 31 0xDEADBEEF 0x80000000);
    [reflexivity | simpl; lia | simpl; lia | simpl; lia].
Defined.

(** C7 (fails on the 32-bit setter).  The field at bits 0..31 of a 32-bit
    register passes the [static_assert]s, and for it the setter's range
    check [value >= (1 << (END - START + 1))] shifts the 32-bit [int] 1
    by 32, a count that is not below the operand's width. *)
Theorem set_32_full_width_shift_count (register_raw value : Z) :
  static_assert W32 0 31 = true /\
  IMPLEMENT_REGISTER_SET W32 0 31 register_raw value
  = UB (ShiftCount 32 int_width).
Proof. split; reflexivity. Qed.

(** * Register model *)

(** ** Per-field access through a permission-checked class *)

Section PermissionChecked.

Variables (r : register) (FIELD : string) (PERMS : REGISTER_PERMS).
Hypothesis Hperms : perms_of FIELD (class_of r) = Some PERMS.

(** A getter without [READ] returns 0 whatever the raw value. *)
Lemma get_denied :
  PERMS = WRITE \/ PERMS = NONE -> get_ FIELD r = Some (Ok 0).
Proof.
  intros Hp. destruct r as [c raw]. unfold get_.
  destruct c as [fs|fs|fs|fs]; cbn [class_of perms_of register_raw] in *;
    try discriminate;
    destruct (find_field_with_perms FIELD fs) as [[[s e] p]|];
    try discriminate; injection Hperms as ->.
  - now rewrite get_16_with_perms_denied.
  - now rewrite get_32_with_perms_denied.
Qed.

(** A setter without [WRITE] returns [false] and changes nothing. *)
Lemma set_denied value :
  PERMS = READ \/ PERMS = NONE -> set_ FIELD r value = Some (Ok (false, r)).
Proof.
  intros Hp. destruct r as [c raw]. unfold set_.
  destruct c as [fs|fs|fs|fs]; cbn [class_of perms_of register_raw] in *;
    try discriminate;
    destruct (find_field_with_perms FIELD fs) as [[[s e] p]|];
    try discriminate; injection Hperms as ->.
  - now rewrite set_16_with_perms_denied.
  - now rewrite set_32_with_perms_denied.
Qed.

Variables (START END : Z).
Hypothesis Hcompiles : compiles (class_of r) = true.
Hypothesis Hlayout : layout_of FIELD (class_of r) = Some (START, END).
Hypothesis Hraw : 0 <= register_raw r < 2 ^ raw_width (class_of r).

(** A getter with [READ] returns the field, cut to 16 bits. *)
Lemma get_allowed :
  PERMS = READ \/ PERMS = READ_WRITE ->
  get_ FIELD r
  = Some (Ok (to_uint16 (extract_spec (register_raw r) START END))).
Proof.
  intros Hp. destruct r as [c raw]. unfold get_.
  destruct c as [fs|fs|fs|fs];
    cbn [class_of perms_of layout_of register_raw raw_width compiles] in *;
    try discriminate;
    destruct (find_field_with_perms FIELD fs) as [[[s e] p]|] eqn:Hfind;
    try discriminate; injection Hperms as ->; injection Hlayout as -> ->.
  - pose proof (find_field_with_perms_compiles_16 _ _ _ _ _ Hcompiles Hfind) as Hf.
    rewrite get_16_with_perms_allowed, get_16_spec by assumption.
    pose proof (static_assert_16_range _ _ Hf) as Hr.
    pose proof (extract_spec_bounds raw START END ltac:(lia)).
    pose proof (pow2_le (END - START + 1) 16 ltac:(lia)).
    rewrite to_uint16_small by lia. reflexivity.
  - pose proof (find_field_with_perms_compiles_32 _ _ _ _ _ Hcompiles Hfind) as Hf.
    now rewrite get_32_with_perms_allowed, get_32_spec.
Qed.

(** A setter with [WRITE] stores a value that fits the field, when the
    field has fewer than 32 bits. *)
Lemma set_allowed value :
  PERMS = WRITE \/ PERMS = READ_WRITE ->
  END - START + 1 < 32 ->
  0 <= value < 2 ^ (END - START + 1) ->
  set_ FIELD r value
  = Some (Ok (true, mk_register (class_of r)
                      (inject_spec (register_raw r) START END value))).
Proof.
  intros Hp Hnarrow Hv. destruct r as [c raw]. unfold set_.
  destruct c as [fs|fs|fs|fs];
    cbn [class_of perms_of layout_of register_raw raw_width compiles] in *;
    try discriminate;
    destruct (find_field_with_perms FIELD fs) as [[[s e] p]|] eqn:Hfind;
    try discriminate; injection Hperms as ->; injection Hlayout as -> ->.
  - pose proof (find_field_with_perms_compiles_16 _ _ _ _ _ Hcompiles Hfind) as Hf.
    pose proof (static_assert_16_range _ _ Hf) as Hr.
    pose proof (pow2_le (END - START + 1) 16 ltac:(lia)).
    rewrite to_uint16_small by lia.
    rewrite set_16_with_perms_allowed, set_16_spec by (assumption || lia).
    destruct (Z.geb_spec value (2 ^ (END - START + 1))); [lia|reflexivity].
  - pose proof (find_field_with_perms_compiles_32 _ _ _ _ _ Hcompiles Hfind) as Hf.
    pose proof (static_assert_32_range _ _ Hf) as Hr.
    pose proof (pow2_le (END - START + 1) 32 ltac:(lia)).
    rewrite to_uint32_small by lia.
    rewrite set_32_with_perms_allowed, set_32_spec by (assumption || lia).
    destruct (Z.geb_spec value (2 ^ (END - START + 1))); [lia|reflexivity].
Qed.

End PermissionChecked.

(** The example program's checks on [link_control_register]. *)
Example link_control_scenario :
  let link_ctrl_reg := construct link_control_register in
  get_register_value link_ctrl_reg = 0x0 /\
  set_ "root_completion_boundary" link_ctrl_reg 1
  = Some (Ok (false, link_ctrl_reg)) /\
  exists r1,
    set_ "link_disable" link_ctrl_reg 1 = Some (Ok (true, r1)) /\
    get_register_value r1 = 16 /\
    get_ "link_disable" r1 = Some (Ok 1).
Proof.
  cbn zeta. split; [reflexivity|]. split; [reflexivity|].
  eexists. split; [reflexivity|]. split; reflexivity.
Qed.

(** C5 (fails on a 32-bit register).  The class [full_width_register]
    passes the [static_assert]s and its field [all] is [READ_WRITE], yet
    [set_all] has no defined result for any value: its range check shifts
    the [int] 1 by 32.  The set of an in-range value does not succeed. *)
Theorem set_read_write_full_width (value : Z) :
  compiles full_width_register = true /\
  perms_of "all" full_width_register = Some READ_WRITE /\
  set_ "all" (construct full_width_register) value
  = Some (UB (ShiftCount 32 int_width)).
Proof. repeat split. Qed.

(** C9.  In a permission-checked register, the getter of a field whose
    permission is [WRITE] or [NONE] returns 0, the conversion of [false]
    to the [uint16_t] result, for every raw value; a readable field whose
    stored bits are 0 returns the very same result. *)
Theorem denied_get_returns_zero
  (c : register_class) (FIELD : string) (PERMS : REGISTER_PERMS) (raw : Z) :
  perms_of FIELD c = Some PERMS ->
  PERMS = WRITE \/ PERMS = NONE ->
  get_ FIELD (mk_register c raw) = Some (Ok (to_uint16 (Z.b2z false))) /\
  to_uint16 (Z.b2z false) = 0 /\
  forall (r' : register) (FIELD' : string) (PERMS' : REGISTER_PERMS)
         (START END : Z),
    perms_of FIELD' (class_of r') = Some PERMS' ->
    PERMS' = READ \/ PERMS' = READ_WRITE ->
    compiles (class_of r') = true ->
    layout_of FIELD' (class_of r') = Some (START, END) ->
    0 <= register_raw r' < 2 ^ raw_width (class_of r') ->
    extract_spec (register_raw r') START END = 0 ->
    get_ FIELD' r' = get_ FIELD (mk_register c raw).
Proof.
  intros Hperms Hp.
  pose proof (get_denied (mk_register c raw) FIELD PERMS Hperms Hp) as Hden.
  split; [exact Hden|]. split; [reflexivity|].
  intros r' FIELD' PERMS' START END Hperms' Hp' Hc Hl Hraw Hzero.
  rewrite Hden.
  rewrite (get_allowed r' FIELD' PERMS' Hperms' START END Hc Hl Hraw Hp').
  rewrite Hzero. reflexivity.
Qed.

Lemma denied_get_returns_zero_witness :
  perms_of "key" port_state_register = Some WRITE /\
  (WRITE = WRITE \/ WRITE = NONE) /\
  get_ "key" (mk_register port_state_register 0xBEEF)
  = Some (Ok (to_uint16 (Z.b2z false))) /\
  to_uint16 (Z.b2z false) = 0 /\
  get_ "link_width" (mk_register port_state_register 0xBE0F)
  = get_ "key" (mk_register port_state_register 0xBEEF).
Proof.
  split; [reflexivity|]. split; [left; reflexivity|].
  destruct (denied_get_returns_zero port_state_register "key" WRITE 0xBEEF)
    as (Hget & Hzero & Hsame); [reflexivity | left; reflexivity |].
  split; [exact Hget|]. split; [exact Hzero|].
  apply (Hsame (mk_register port_state_register 0xBE0F) "link_width"%string
               READ 4 7);
    [reflexivity | left; reflexivity | reflexivity | reflexivity
    | simpl; lia | reflexivity].
Defined.

(** ** Whole-register operations *)

Lemma to_raw_small (c : register_class) (x : Z) :
  0 <= x < 2 ^ raw_width c -> to_raw c x = x.
Proof.
  intros Hx. destruct c; cbn [to_raw raw_width] in *;
    (now apply to_uint16_small) || (now apply to_uint32_small).
Qed.

(** C6.  For a register of any of the four classes and a value [x] of the
    raw value's type: [get_register_value] after [set_register_value x]
    returns [x], and after [clear_register_value] it returns 0.  Both
    operations are total functions returning the updated object. *)
Theorem whole_register_round_trip (r : register) (x : Z) :
  0 <= x < 2 ^ raw_width (class_of r) ->
  get_register_value (set_register_value r x) = x /\
  get_register_value (clear_register_value r) = 0.
Proof.
  intros Hx. split; [|reflexivity].
  unfold get_register_value, set_register_value. cbn [register_raw].
  now apply to_raw_small.
Qed.

Lemma whole_register_round_trip_witness :
  0 <= 0xDEADBEEF
  < 2 ^ raw_width (class_of (construct link_capabilites_register)) /\
  get_register_value
    (set_register_value (construct link_capabilites_register) 0xDEADBEEF)
  = 0xDEADBEEF /\
  get_register_value
    (clear_register_value (construct link_capabilites_register)) = 0.
Proof.
  split; [simpl; lia|].
  apply (whole_register_round_trip
           (construct link_capabilites_register) 0xDEADBEEF).
  simpl; lia.
Defined.

(** C8.  The example program's run on [link_capabilites_register]: after
    [set_register_value(0xDEADBEEF)], [get_aspm_support()] is [0b11];
    after [clear_register_value()] the raw value is 0; then
    [set_max_link_speed(0xF)] gives raw value 0x0000000F and
    [set_port_number(0xFF)] after it gives 0xFF00000F. *)
Theorem link_capabilities_scenario :
  let r0 := construct link_capabilites_register in
  let r1 := set_register_value r0 0xDEADBEEF in
  let r2 := clear_register_value r1 in
  get_register_value r1 = 0xDEADBEEF /\
  get_ "aspm_support" r1 = Some (Ok 3) /\
  get_register_value r2 = 0x0 /\
  exists r3 r4,
    set_ "max_link_speed" r2 0xF = Some (Ok (true, r3)) /\
    get_register_value r3 = 0x0000000F /\
    set_ "port_number" r3 0xFF = Some (Ok (true, r4)) /\
    get_register_value r4 = 0xFF00000F.
Proof.
  cbn zeta. split; [reflexivity|]. split; [reflexivity|].
  split; [reflexivity|].
  eexists. eexists.
  split; [reflexivity|]. split; [reflexivity|]. split; reflexivity.
Qed.

(** C10.  In a permission-checked register, whatever permissions its
    fields have, [set_register_value x] makes the raw value [x] and
    [clear_register_value] makes it 0; both return the updated object of
    the same class, so every bit is replaced or cleared. *)
Theorem whole_register_ignores_perms (r : register) (x : Z) :
  with_perms (class_of r) = true ->
  0 <= x < 2 ^ raw_width (class_of r) ->
  set_register_value r x = mk_register (class_of r) x /\
  clear_register_value r = mk_register (class_of r) 0 /\
  (forall i, Z.testbit (get_register_value (set_register_value r x)) i
             = Z.testbit x i) /\
  (forall i, Z.testbit (get_register_value (clear_register_value r)) i
             = false).
Proof.
  intros _ Hx. unfold set_register_value, clear_register_value, get_register_value.
  cbn [register_raw]. rewrite to_raw_small by assumption.
  repeat split. intros i. apply Z.testbit_0_l.
Qed.

Lemma whole_register_ignores_perms_witness :
  with_perms (class_of (mk_register port_state_register 0x1234)) = true /\
  0 <= 0xBEEF
  < 2 ^ raw_width (class_of (mk_register port_state_register 0x1234)) /\
  set_register_value (mk_register port_state_register 0x1234) 0xBEEF
  = mk_register port_state_register 0xBEEF /\
  clear_register_value (mk_register port_state_register 0x1234)
  = mk_register port_state_register 0.
Proof.
  split; [reflexivity|]. split; [simpl; lia|].
  destruct (whole_register_ignores_perms
              (mk_register port_state_register 0x1234) 0xBEEF)
    as (Hset & Hclear & _); [reflexivity | simpl; lia |].
  split; [exact Hset | exact Hclear].
Defined.

(** * Further properties of the accessors *)

(** ** Both widths at once *)

Section AnyWidth.

Variables (w : width) (START END register_raw value : Z).
Hypothesis Hfield : static_assert w START END = true.
Hypothesis Hraw : 0 <= register_raw < 2 ^ bits w.

Lemma field_width_le : 2 ^ (END - START + 1) <= 2 ^ bits w.
Proof.
  pose proof (static_assert_range _ _ _ Hfield) as Hr. apply pow2_le.
  clear Hraw. destruct w; cbn [bits] in Hr |- *; lia.
Qed.

Lemma get_spec :
  IMPLEMENT_REGISTER_GET w START END register_raw
  = Ok (to_uint16 (extract_spec register_raw START END)).
Proof.
  destruct w; cbn [bits static_assert IMPLEMENT_REGISTER_GET] in *.
  - rewrite get_16_spec by assumption.
    pose proof (static_assert_16_range _ _ Hfield) as Hr.
    pose proof (extract_spec_bounds register_raw START END ltac:(lia)).
    pose proof (pow2_le (END - START + 1) 16 ltac:(lia)).
    rewrite to_uint16_small by lia. reflexivity.
  - now apply get_32_spec.
Qed.

Lemma get_spec_narrow :
  END - START < 16 ->
  IMPLEMENT_REGISTER_GET w START END register_raw
  = Ok (extract_spec register_raw START END).
Proof.
  intros Hw. rewrite get_spec.
  pose proof (static_assert_range _ _ _ Hfield) as Hr.
  pose proof (extract_spec_bounds register_raw START END ltac:(lia)).
  pose proof (pow2_le (END - START + 1) 16 ltac:(lia)).
  rewrite to_uint16_small by lia. reflexivity.
Qed.

Hypothesis Hvalue : 0 <= value < 2 ^ bits w.

Lemma set_spec :
  END - START < 31 ->
  IMPLEMENT_REGISTER_SET w START END register_raw value
  = Ok (if value >=? 2 ^ (END - START + 1)
        then (false, register_raw)
        else (true, inject_spec register_raw START END value)).
Proof.
  intros Hnarrow.
  destruct w; cbn [bits static_assert IMPLEMENT_REGISTER_SET] in *.
  - now apply set_16_spec.
  - now apply set_32_spec.
Qed.

(** What a defined result of the setter can be. *)
Lemma set_ok_inv b raw' :
  IMPLEMENT_REGISTER_SET w START END register_raw value = Ok (b, raw') ->
  END - START < 31 /\
  ((b = false /\ raw' = register_raw /\ 2 ^ (END - START + 1) <= value) \/
   (b = true /\ value < 2 ^ (END - START + 1) /\
    raw' = inject_spec register_raw START END value)).
Proof.
  intros Hset.
  pose proof (static_assert_range _ _ _ Hfield) as Hr.
  assert (Hnarrow : END - START < 31).
  { destruct (Z.lt_ge_cases (END - START) 31) as [H|H]; [exact H|].
    destruct w; cbn [bits IMPLEMENT_REGISTER_SET] in *; [lia|].
    rewrite set_32_full_width in Hset by lia. discriminate. }
  split; [exact Hnarrow|].
  rewrite set_spec in Hset by assumption.
  destruct (Z.geb_spec value (2 ^ (END - START + 1)));
    injection Hset as <- <-; [left | right]; repeat split; lia.
Qed.

Lemma set_fits :
  END - START < 31 -> value < 2 ^ (END - START + 1) ->
  IMPLEMENT_REGISTER_SET w START END register_raw value
  = Ok (true, inject_spec register_raw START END value).
Proof.
  intros Hnarrow Hv. rewrite set_spec by assumption.
  destruct (Z.geb_spec value (2 ^ (END - START + 1))); [lia|reflexivity].
Qed.

(** A defined result of the setter is again a value of the raw type. *)
Lemma set_range b raw' :
  IMPLEMENT_REGISTER_SET w START END register_raw value = Ok (b, raw') ->
  0 <= raw' < 2 ^ bits w.
Proof.
  intros Hset. pose proof (static_assert_range _ _ _ Hfield) as Hr.
  destruct (set_ok_inv b raw' Hset) as [_ [(_ & -> & _) | (_ & Hv & ->)]];
    [assumption|].
  apply inject_spec_bounds; lia.
Qed.

End AnyWidth.

(** ** More bit arithmetic of [inject_spec] and [extract_spec] *)

Section MoreBits.

Variables (raw start end_ : Z).
Hypothesis Hrange : 0 <= start <= end_.

(** A second injection into the same field overwrites the first. *)
Lemma inject_inject_spec v1 v2 :
  0 <= v1 < 2 ^ (end_ - start + 1) -> 0 <= v2 < 2 ^ (end_ - start + 1) ->
  inject_spec (inject_spec raw start end_ v1) start end_ v2
  = inject_spec raw start end_ v2.
Proof.
  intros H1 H2. apply Z.bits_inj'. intros i Hi.
  rewrite !inject_spec_bit by assumption.
  destruct ((start <=? i) && (i <=? end_)); reflexivity.
Qed.

(** Injecting the field's own value changes nothing. *)
Lemma inject_extract_spec :
  0 <= raw ->
  inject_spec raw start end_ (extract_spec raw start end_) = raw.
Proof.
  intros Hraw. apply Z.bits_inj'. intros i Hi.
  rewrite inject_spec_bit
    by (assumption || (apply extract_spec_bounds; assumption)).
  destruct (Z.leb_spec start i); cbn [andb]; [|reflexivity].
  destruct (Z.leb_spec i end_); [|reflexivity].
  unfold extract_spec.
  rewrite Z.land_spec, Z.shiftr_spec, Z.ones_spec_low by lia.
  rewrite andb_true_r. f_equal. lia.
Qed.

Variables (start' end_' : Z).
Hypothesis Hrange' : 0 <= start' <= end_'.
Hypothesis Hdisjoint : end_ < start' \/ end_' < start.

(** Injections into disjoint fields commute. *)
Lemma inject_spec_comm v v' :
  0 <= v < 2 ^ (end_ - start + 1) -> 0 <= v' < 2 ^ (end_' - start' + 1) ->
  inject_spec (inject_spec raw start end_ v) start' end_' v'
  = inject_spec (inject_spec raw start' end_' v') start end_ v.
Proof.
  intros Hv Hv'. apply Z.bits_inj'. intros i Hi.
  rewrite !inject_spec_bit by assumption.
  destruct (Z.leb_spec start i), (Z.leb_spec i end_),
    (Z.leb_spec start' i), (Z.leb_spec i end_'); cbn [andb];
    reflexivity || lia.
Qed.

(** Extraction of a field is blind to an injection into a disjoint one. *)
Lemma extract_inject_disjoint v :
  0 <= v < 2 ^ (end_ - start + 1) ->
  extract_spec (inject_spec raw start end_ v) start' end_'
  = extract_spec raw start' end_'.
Proof.
  intros Hv. unfold extract_spec. apply Z.bits_inj'. intros i Hi.
  rewrite !Z.land_spec, !Z.shiftr_spec by assumption.
  destruct (Z.lt_ge_cases i (end_' - start' + 1)).
  - rewrite inject_spec_frame by (assumption || lia). reflexivity.
  - rewrite Z.ones_spec_high by lia. now rewrite !andb_false_r.
Qed.

End MoreBits.

(** ** Getters *)

(** X1.  The 16-bit getter, and the permission-checked one on a field with
    [READ], returns [(raw >> START) & mask] with the mask of
    [END - START + 1] low bits; the result is below [2^(END-START+1)]. *)
Theorem get_16_extracts (START END register_raw : Z) :
  static_assert_16 START END = true ->
  0 <= register_raw < 2 ^ 16 ->
  IMPLEMENT_REGISTER_16_GET START END register_raw
  = Ok (extract_spec register_raw START END) /\
  (forall PERMS, PERMS = READ \/ PERMS = READ_WRITE ->
     IMPLEMENT_REGISTER_16_GET_WITH_PERMS START END PERMS register_raw
     = Ok (extract_spec register_raw START END)) /\
  0 <= extract_spec register_raw START END < 2 ^ (END - START + 1).
Proof.
  intros Hf Hraw. pose proof (static_assert_16_range _ _ Hf) as Hr.
  split; [now apply get_16_spec|]. split.
  - intros PERMS Hp. rewrite get_16_with_perms_allowed by assumption.
    now apply get_16_spec.
  - apply extract_spec_bounds; lia.
Qed.

Lemma get_16_extracts_witness :
  static_assert_16 4 9 = true /\
  0 <= 0xBEEF < 2 ^ 16 /\
  IMPLEMENT_REGISTER_16_GET 4 9 0xBEEF = Ok (extract_spec 0xBEEF 4 9) /\
  extract_spec 0xBEEF 4 9 = 0x2E.
Proof.
  split; [reflexivity|]. split; [lia|].
  destruct (get_16_extracts 4 9 0xBEEF) as (Hget & _ & _);
    [reflexivity | lia |].
  split; [exact Hget | reflexivity].
Defined.

(** X2.  The 32-bit getter, and the permission-checked one on a field with
    [READ], returns the extracted field modulo [2^16]; for a field of at
    most 16 bits that is the extracted field itself. *)
Theorem get_32_extracts_low_16 (START END register_raw : Z) :
  static_assert_32 START END = true ->
  0 <= register_raw < 2 ^ 32 ->
  IMPLEMENT_REGISTER_32_GET START END register_raw
  = Ok (extract_spec register_raw START END mod 2 ^ 16) /\
  (forall PERMS, PERMS = READ \/ PERMS = READ_WRITE ->
     IMPLEMENT_REGISTER_32_GET_WITH_PERMS START END PERMS register_raw
     = Ok (extract_spec register_raw START END mod 2 ^ 16)) /\
  (END - START < 16 ->
   extract_spec register_raw START END mod 2 ^ 16
   = extract_spec register_raw START END).
Proof.
  intros Hf Hraw. pose proof (static_assert_32_range _ _ Hf) as Hr.
  split; [now apply get_32_spec|]. split.
  - intros PERMS Hp. rewrite get_32_with_perms_allowed by assumption.
    now apply get_32_spec.
  - intros Hw.
    pose proof (extract_spec_bounds register_raw START END ltac:(lia)).
    pose proof (pow2_le (END - START + 1) 16 ltac:(lia)).
    apply Z.mod_small. lia.
Qed.

Lemma get_32_extracts_low_16_witness :
  static_assert_32 8 31 = true /\
  0 <= 0xDEADBEEF < 2 ^ 32 /\
  IMPLEMENT_REGISTER_32_GET 8 31 0xDEADBEEF
  = Ok (extract_spec 0xDEADBEEF 8 31 mod 2 ^ 16) /\
  extract_spec 0xDEADBEEF 8 31 = 0xDEADBE /\
  extract_spec 0xDEADBEEF 8 31 mod 2 ^ 16 = 0xADBE.
Proof.
  split; [reflexivity|]. split; [lia|].
  destruct (get_32_extracts_low_16 8 31 0xDEADBEEF) as (Hget & _ & _);
    [reflexivity | lia |].
  split; [exact Hget|]. split; reflexivity.
Defined.

(** ** Setters *)

(** X3.  For a field of fewer than 32 bits and a value that fits it, the
    setter, and the permission-checked one on a field with [WRITE],
    returns [true] and leaves the raw value with the field's bits
    replaced by the value and the raw value still of the register's
    width. *)
Theorem set_succeeds_when_value_fits
  (w : width) (START END register_raw value : Z) :
  static_assert w START END = true ->
  END - START < 31 ->
  0 <= register_raw < 2 ^ bits w ->
  0 <= value < 2 ^ (END - START + 1) ->
  IMPLEMENT_REGISTER_SET w START END register_raw value
  = Ok (true, inject_spec register_raw START END value) /\
  (forall PERMS, PERMS = WRITE \/ PERMS = READ_WRITE ->
     IMPLEMENT_REGISTER_SET_WITH_PERMS w START END PERMS register_raw value
     = Ok (true, inject_spec register_raw START END value)) /\
  0 <= inject_spec register_raw START END value < 2 ^ bits w.
Proof.
  intros Hf Hnarrow Hraw Hv.
  pose proof (field_width_le w START END Hf) as Hle.
  pose proof (static_assert_range _ _ _ Hf) as Hr.
  assert (Hset : IMPLEMENT_REGISTER_SET w START END register_raw value
                 = Ok (true, inject_spec register_raw START END value))
    by (apply set_fits; assumption || lia).
  split; [exact Hset|]. split.
  - intros PERMS Hp. rewrite <- Hset.
    destruct w; cbn [IMPLEMENT_REGISTER_SET_WITH_PERMS IMPLEMENT_REGISTER_SET].
    + now apply set_16_with_perms_allowed.
    + now apply set_32_with_perms_allowed.
  - apply inject_spec_bounds; lia.
Qed.

Lemma set_succeeds_when_value_fits_witness :
  static_assert W32 1 31 = true /\
  31 - 1 < 31 /\
  0 <= 1 < 2 ^ bits W32 /\
  0 <= 0x7FFFFFFF < 2 ^ (31 - 1 + 1) /\
  IMPLEMENT_REGISTER_SET W32 1 31 1 0x7FFFFFFF
  = Ok (true, inject_spec 1 1 31 0x7FFFFFFF) /\
  inject_spec 1 1 31 0x7FFFFFFF = 0xFFFFFFFF.
Proof.
  split; [reflexivity|]. split; [lia|]. split; [simpl; lia|].
  split; [simpl; lia|].
  destruct (set_succeeds_when_value_fits W32 1 31 1 0x7FFFFFFF)
    as (Hset & _ & _); [reflexivity | lia | simpl; lia | simpl; lia |].
  split; [exact Hset | reflexivity].
Defined.

(** X4.  Round trip, either width, for a field of at most 16 bits: the set
    of a value that fits returns [true], and the get on the raw value it
    leaves returns that value. *)
Theorem get_after_set (w : width) (START END register_raw value : Z) :
  static_assert w START END = true ->
  END - START < 16 ->
  0 <= register_raw < 2 ^ bits w ->
  0 <= value < 2 ^ (END - START + 1) ->
  exists raw',
    IMPLEMENT_REGISTER_SET w START END register_raw value = Ok (true, raw') /\
    IMPLEMENT_REGISTER_GET w START END raw' = Ok value.
Proof.
  intros Hf Hw Hraw Hv.
  pose proof (field_width_le w START END Hf) as Hle.
  pose proof (static_assert_range _ _ _ Hf) as Hr.
  exists (inject_spec register_raw START END value). split.
  - apply set_fits; assumption || lia.
  - rewrite get_spec_narrow
      by (assumption || (apply inject_spec_bounds; lia)).
    rewrite extract_inject_spec by (assumption || lia). reflexivity.
Qed.

Lemma get_after_set_witness :
  static_assert W16 0 15 = true /\
  15 - 0 < 16 /\
  0 <= 0xBEEF < 2 ^ bits W16 /\
  0 <= 0x1234 < 2 ^ (15 - 0 + 1) /\
  exists raw',
    IMPLEMENT_REGISTER_SET W16 0 15 0xBEEF 0x1234 = Ok (true, raw') /\
    IMPLEMENT_REGISTER_GET W16 0 15 raw' = Ok 0x1234.
Proof.
  split; [reflexivity|]. split; [lia|]. split; [simpl; lia|].
  split; [simpl; lia|].
  apply (get_after_set W16 0 15 0xBEEF 0x1234);
    [reflexivity | lia | simpl; lia | simpl; lia].
Defined.

(** X5.  In a 32-bit register, for any field of fewer than 32 bits: after
    the set of a value that fits, the get returns the value modulo
    [2^16]. *)
Theorem get_after_set_32_low_16 (START END register_raw value : Z) :
  static_assert_32 START END = true ->
  END - START < 31 ->
  0 <= register_raw < 2 ^ 32 ->
  0 <= value < 2 ^ (END - START + 1) ->
  exists raw',
    IMPLEMENT_REGISTER_32_SET START END register_raw value = Ok (true, raw') /\
    IMPLEMENT_REGISTER_32_GET START END raw' = Ok (value mod 2 ^ 16).
Proof.
  intros Hf Hnarrow Hraw Hv.
  pose proof (static_assert_32_range _ _ Hf) as Hr.
  pose proof (pow2_le (END - START + 1) 32 ltac:(lia)) as Hle.
  assert (Hset : IMPLEMENT_REGISTER_32_SET START END register_raw value
                 = Ok (true, inject_spec register_raw START END value))
    by (apply (set_fits W32); assumption || (cbn [bits]; lia)).
  exists (inject_spec register_raw START END value).
  split; [exact Hset|].
  exact (get_set_32 START END register_raw value Hv _ Hf Hraw Hset).
Qed.

Lemma get_after_set_32_low_16_witness :
  static_assert_32 4 27 = true /\
  27 - 4 < 31 /\
  0 <= 0xF000000F < 2 ^ 32 /\
  0 <= 0xABCDEF < 2 ^ (27 - 4 + 1) /\
  exists raw',
    IMPLEMENT_REGISTER_32_SET 4 27 0xF000000F 0xABCDEF = Ok (true, raw') /\
    IMPLEMENT_REGISTER_32_GET 4 27 raw' = Ok (0xABCDEF mod 2 ^ 16).
Proof.
  split; [reflexivity|]. split; [lia|]. split; [lia|]. split; [simpl; lia|].
  apply (get_after_set_32_low_16 4 27 0xF000000F 0xABCDEF);
    [reflexivity | lia | lia | simpl; lia].
Defined.

(** A setter that returns [false] hands back the raw value it was given;
    read off the code's control flow, with no assumption on the inputs. *)
Lemma set_false_inv (w : width) (START END register_raw value raw' : Z) :
  IMPLEMENT_REGISTER_SET w START END register_raw value = Ok (false, raw') ->
  raw' = register_raw.
Proof.
  destruct w; cbn [IMPLEMENT_REGISTER_SET];
    unfold IMPLEMENT_REGISTER_16_SET, IMPLEMENT_REGISTER_32_SET; intros H;
    repeat match type of H with
      | bind ?c _ = _ => destruct c; cbn [bind] in H; try discriminate H
      | (if ?b then _ else _) = _ => destruct b
      end;
    try discriminate H; now injection H as <-.
Qed.

(** X6.  Invariant: whenever a setter, with or without permissions,
    returns, the raw value it leaves is again a value of the register's
    width. *)
Theorem set_keeps_raw_in_range
  (w : width) (START END register_raw value : Z) (b : bool) (raw' : Z) :
  static_assert w START END = true ->
  0 <= register_raw < 2 ^ bits w ->
  0 <= value < 2 ^ bits w ->
  IMPLEMENT_REGISTER_SET w START END register_raw value = Ok (b, raw') \/
  (exists PERMS,
     IMPLEMENT_REGISTER_SET_WITH_PERMS w START END PERMS register_raw value
     = Ok (b, raw')) ->
  0 <= raw' < 2 ^ bits w.
Proof.
  intros Hf Hraw Hv [Hset | [PERMS Hset]].
  - exact (set_range w START END register_raw value Hf Hraw Hv b raw' Hset).
  - destruct (set_with_perms_cases w START END PERMS register_raw value)
      as [Hdenied | Hsame].
    + rewrite Hdenied in Hset. now injection Hset as _ <-.
    + rewrite Hsame in Hset.
      exact (set_range w START END register_raw value Hf Hraw Hv b raw' Hset).
Qed.

Lemma set_keeps_raw_in_range_witness :
  static_assert W16 12 15 = true /\
  0 <= 0x0FFF < 2 ^ bits W16 /\
  0 <= 0xF < 2 ^ bits W16 /\
  IMPLEMENT_REGISTER_SET W16 12 15 0x0FFF 0xF = Ok (true, 0xFFFF) /\
  0 <= 0xFFFF < 2 ^ bits W16.
Proof.
  split; [reflexivity|]. split; [simpl; lia|]. split; [simpl; lia|].
  split; [reflexivity|].
  apply (set_keeps_raw_in_range W16 12 15 0x0FFF 0xF true 0xFFFF);
    [reflexivity | simpl; lia | simpl; lia | left; reflexivity].
Defined.

(** X7.  A setter, with or without permissions, that returns [false]
    leaves the raw value exactly as it was, whatever the field, the
    permission, the raw value and the value. *)
Theorem failed_set_leaves_raw
  (w : width) (START END register_raw value raw' : Z) :
  IMPLEMENT_REGISTER_SET w START END register_raw value = Ok (false, raw') \/
  (exists PERMS,
     IMPLEMENT_REGISTER_SET_WITH_PERMS w START END PERMS register_raw value
     = Ok (false, raw')) ->
  raw' = register_raw.
Proof.
  intros [Hset | [PERMS Hset]].
  - exact (set_false_inv w START END register_raw value raw' Hset).
  - destruct (set_with_perms_cases w START END PERMS register_raw value)
      as [Hdenied | Hsame].
    + rewrite Hdenied in Hset. now injection Hset as <-.
    + rewrite Hsame in Hset.
      exact (set_false_inv w START END register_raw value raw' Hset).
Qed.

Lemma failed_set_leaves_raw_witness :
  (exists PERMS,
     IMPLEMENT_REGISTER_SET_WITH_PERMS W16 3 3 PERMS 0xBEEF 1
     = Ok (false, 0xBEEF)) /\
  0xBEEF = 0xBEEF.
Proof.
  assert (H : exists PERMS,
             IMPLEMENT_REGISTER_SET_WITH_PERMS W16 3 3 PERMS 0xBEEF 1
             = Ok (false, 0xBEEF)) by (exists READ; reflexivity).
  split; [exact H|].
  exact (failed_set_leaves_raw W16 3 3 0xBEEF 1 0xBEEF (or_intror H)).
Defined.

(** X8.  A setter that returns [true] was given a value that fits the
    field, and bit [i] of the field, [START <= i <= END], of the raw value
    it leaves is bit [i - START] of the value. *)
Theorem successful_set_stores_value
  (w : width) (START END register_raw value raw' : Z) :
  static_assert w START END = true ->
  0 <= register_raw < 2 ^ bits w ->
  0 <= value < 2 ^ bits w ->
  IMPLEMENT_REGISTER_SET w START END register_raw value = Ok (true, raw') ->
  value < 2 ^ (END - START + 1) /\
  forall i, START <= i <= END ->
            Z.testbit raw' i = Z.testbit value (i - START).
Proof.
  intros Hf Hraw Hv Hset.
  pose proof (static_assert_range _ _ _ Hf) as Hr.
  destruct (set_ok_inv w START END register_raw value Hf Hraw Hv true raw' Hset)
    as [_ [(Hb & _) | (_ & Hfit & ->)]]; [discriminate|].
  split; [exact Hfit|]. intros i Hi.
  rewrite inject_spec_bit by lia.
  replace ((START <=? i) && (i <=? END)) with true by lia. reflexivity.
Qed.

Lemma successful_set_stores_value_witness :
  static_assert W32 24 31 = true /\
  0 <= 0xDEADBEEF < 2 ^ bits W32 /\
  0 <= 0x12 < 2 ^ bits W32 /\
  IMPLEMENT_REGISTER_SET W32 24 31 0xDEADBEEF 0x12 = Ok (true, 0x12ADBEEF) /\
  0x12 < 2 ^ (31 - 24 + 1) /\
  forall i, 24 <= i <= 31 ->
            Z.testbit 0x12ADBEEF i = Z.testbit 0x12 (i - 24).
Proof.
  split; [reflexivity|]. split; [simpl; lia|]. split; [simpl; lia|].
  split; [reflexivity|].
  apply (successful_set_stores_value W32 24 31 0xDEADBEEF 0x12 0x12ADBEEF);
    [reflexivity | simpl; lia | simpl; lia | reflexivity].
Defined.

(** X9.  The last write wins: two sets of the same field, of values that
    fit, leave the raw value that the second set alone would leave. *)
Theorem set_overwrites_previous_set
  (w : width) (START END register_raw v1 v2 : Z) :
  static_assert w START END = true ->
  END - START < 31 ->
  0 <= register_raw < 2 ^ bits w ->
  0 <= v1 < 2 ^ (END - START + 1) ->
  0 <= v2 < 2 ^ (END - START + 1) ->
  exists r1 r2,
    IMPLEMENT_REGISTER_SET w START END register_raw v1 = Ok (true, r1) /\
    IMPLEMENT_REGISTER_SET w START END r1 v2 = Ok (true, r2) /\
    IMPLEMENT_REGISTER_SET w START END register_raw v2 = Ok (true, r2).
Proof.
  intros Hf Hnarrow Hraw H1 H2.
  pose proof (field_width_le w START END Hf) as Hle.
  pose proof (static_assert_range _ _ _ Hf) as Hr.
  assert (Hr1 : 0 <= inject_spec register_raw START END v1 < 2 ^ bits w)
    by (apply inject_spec_bounds; lia).
  exists (inject_spec register_raw START END v1),
         (inject_spec register_raw START END v2).
  split; [apply set_fits; assumption || lia|].
  split; [|apply set_fits; assumption || lia].
  rewrite set_fits by (assumption || lia).
  rewrite inject_inject_spec by lia. reflexivity.
Qed.

Lemma set_overwrites_previous_set_witness :
  static_assert W16 4 7 = true /\
  7 - 4 < 31 /\
  0 <= 0xBEEF < 2 ^ bits W16 /\
  0 <= 0x3 < 2 ^ (7 - 4 + 1) /\
  0 <= 0xC < 2 ^ (7 - 4 + 1) /\
  exists r1 r2,
    IMPLEMENT_REGISTER_SET W16 4 7 0xBEEF 0x3 = Ok (true, r1) /\
    IMPLEMENT_REGISTER_SET W16 4 7 r1 0xC = Ok (true, r2) /\
    IMPLEMENT_REGISTER_SET W16 4 7 0xBEEF 0xC = Ok (true, r2).
Proof.
  split; [reflexivity|]. split; [lia|]. split; [simpl; lia|].
  split; [simpl; lia|]. split; [simpl; lia|].
  apply (set_overwrites_previous_set W16 4 7 0xBEEF 0x3 0xC);
    [reflexivity | lia | simpl; lia | simpl; lia | simpl; lia].
Defined.

(** ** Two fields *)

(** Two disjoint fields of one register each have fewer than 32 bits. *)
Lemma disjoint_fields_narrow (w : width) (S1 E1 S2 E2 : Z) :
  static_assert w S1 E1 = true -> static_assert w S2 E2 = true ->
  E1 < S2 \/ E2 < S1 ->
  E1 - S1 < 31 /\ E2 - S2 < 31.
Proof.
  intros H1 H2 Hd.
  apply static_assert_range in H1. apply static_assert_range in H2.
  destruct w; cbn [bits] in *; lia.
Qed.

(** X10.  Sets of two disjoint fields commute: done in either order, with
    values that fit, both succeed and leave the same raw value. *)
Theorem sets_of_disjoint_fields_commute
  (w : width) (S1 E1 S2 E2 register_raw v1 v2 : Z) :
  static_assert w S1 E1 = true ->
  static_assert w S2 E2 = true ->
  E1 < S2 \/ E2 < S1 ->
  0 <= register_raw < 2 ^ bits w ->
  0 <= v1 < 2 ^ (E1 - S1 + 1) ->
  0 <= v2 < 2 ^ (E2 - S2 + 1) ->
  exists a b c,
    IMPLEMENT_REGISTER_SET w S1 E1 register_raw v1 = Ok (true, a) /\
    IMPLEMENT_REGISTER_SET w S2 E2 a v2 = Ok (true, c) /\
    IMPLEMENT_REGISTER_SET w S2 E2 register_raw v2 = Ok (true, b) /\
    IMPLEMENT_REGISTER_SET w S1 E1 b v1 = Ok (true, c).
Proof.
  intros Hf1 Hf2 Hd Hraw Hv1 Hv2.
  destruct (disjoint_fields_narrow w S1 E1 S2 E2 Hf1 Hf2 Hd) as [Hn1 Hn2].
  pose proof (field_width_le w S1 E1 Hf1) as Hle1.
  pose proof (field_width_le w S2 E2 Hf2) as Hle2.
  pose proof (static_assert_range _ _ _ Hf1) as Hr1.
  pose proof (static_assert_range _ _ _ Hf2) as Hr2.
  assert (Ha : 0 <= inject_spec register_raw S1 E1 v1 < 2 ^ bits w)
    by (apply inject_spec_bounds; lia).
  assert (Hb : 0 <= inject_spec register_raw S2 E2 v2 < 2 ^ bits w)
    by (apply inject_spec_bounds; lia).
  exists (inject_spec register_raw S1 E1 v1),
         (inject_spec register_raw S2 E2 v2),
         (inject_spec (inject_spec register_raw S1 E1 v1) S2 E2 v2).
  split; [apply set_fits; assumption || lia|].
  split; [apply set_fits; assumption || lia|].
  split; [apply set_fits; assumption || lia|].
  rewrite set_fits by (assumption || lia).
  rewrite (inject_spec_comm register_raw S1 E1 ltac:(lia) S2 E2 ltac:(lia) Hd)
    by assumption.
  reflexivity.
Qed.

Lemma sets_of_disjoint_fields_commute_witness :
  static_assert W32 0 3 = true /\
  static_assert W32 24 31 = true /\
  (3 < 24 \/ 31 < 0) /\
  0 <= 0 < 2 ^ bits W32 /\
  0 <= 0xF < 2 ^ (3 - 0 + 1) /\
  0 <= 0xFF < 2 ^ (31 - 24 + 1) /\
  exists a b c,
    IMPLEMENT_REGISTER_SET W32 0 3 0 0xF = Ok (true, a) /\
    IMPLEMENT_REGISTER_SET W32 24 31 a 0xFF = Ok (true, c) /\
    IMPLEMENT_REGISTER_SET W32 24 31 0 0xFF = Ok (true, b) /\
    IMPLEMENT_REGISTER_SET W32 0 3 b 0xF = Ok (true, c).
Proof.
  split; [reflexivity|]. split; [reflexivity|]. split; [left; lia|].
  split; [simpl; lia|]. split; [simpl; lia|]. split; [simpl; lia|].
  apply (sets_of_disjoint_fields_commute W32 0 3 24 31 0 0xF 0xFF);
    [reflexivity | reflexivity | left; lia | simpl; lia | simpl; lia
    | simpl; lia].
Defined.

(** X11.  A successful set of one field does not change what the getter
    of a disjoint field returns. *)
Theorem get_unaffected_by_set_of_disjoint_field
  (w : width) (S1 E1 S2 E2 register_raw value raw' : Z) :
  static_assert w S1 E1 = true ->
  static_assert w S2 E2 = true ->
  E1 < S2 \/ E2 < S1 ->
  0 <= register_raw < 2 ^ bits w ->
  0 <= value < 2 ^ bits w ->
  IMPLEMENT_REGISTER_SET w S1 E1 register_raw value = Ok (true, raw') ->
  IMPLEMENT_REGISTER_GET w S2 E2 raw'
  = IMPLEMENT_REGISTER_GET w S2 E2 register_raw.
Proof.
  intros Hf1 Hf2 Hd Hraw Hv Hset.
  pose proof (static_assert_range _ _ _ Hf1) as Hr1.
  pose proof (static_assert_range _ _ _ Hf2) as Hr2.
  pose proof (set_range w S1 E1 register_raw value Hf1 Hraw Hv true raw' Hset)
    as Hraw'.
  destruct (set_ok_inv w S1 E1 register_raw value Hf1 Hraw Hv true raw' Hset)
    as [_ [(Hb & _) | (_ & Hfit & Heq)]]; [discriminate|].
  rewrite !get_spec by assumption. subst raw'.
  rewrite (extract_inject_disjoint register_raw S1 E1 ltac:(lia)
             S2 E2 ltac:(lia) Hd) by lia.
  reflexivity.
Qed.

Lemma get_unaffected_by_set_of_disjoint_field_witness :
  static_assert W16 0 7 = true /\
  static_assert W16 8 15 = true /\
  (7 < 8 \/ 15 < 0) /\
  0 <= 0xBEEF < 2 ^ bits W16 /\
  0 <= 0x12 < 2 ^ bits W16 /\
  IMPLEMENT_REGISTER_SET W16 0 7 0xBEEF 0x12 = Ok (true, 0xBE12) /\
  IMPLEMENT_REGISTER_GET W16 8 15 0xBE12
  = IMPLEMENT_REGISTER_GET W16 8 15 0xBEEF.
Proof.
  split; [reflexivity|]. split; [reflexivity|]. split; [left; lia|].
  split; [simpl; lia|]. split; [simpl; lia|]. split; [reflexivity|].
  apply (get_unaffected_by_set_of_disjoint_field W16 0 7 8 15 0xBEEF 0x12);
    [reflexivity | reflexivity | left; lia | simpl; lia | simpl; lia
    | reflexivity].
Defined.

(** X12.  Writing back what was read changes nothing: for a field of at
    most 16 bits, the set of the value the getter returns succeeds and
    leaves the raw value as it was. *)
Theorem set_of_got_value_is_identity
  (w : width) (START END register_raw x : Z) :
  static_assert w START END = true ->
  END - START < 16 ->
  0 <= register_raw < 2 ^ bits w ->
  IMPLEMENT_REGISTER_GET w START END register_raw = Ok x ->
  IMPLEMENT_REGISTER_SET w START END register_raw x
  = Ok (true, register_raw).
Proof.
  intros Hf Hw Hraw Hget.
  pose proof (field_width_le w START END Hf) as Hle.
  pose proof (static_assert_range _ _ _ Hf) as Hr.
  rewrite get_spec_narrow in Hget by assumption. injection Hget as <-.
  pose proof (extract_spec_bounds register_raw START END ltac:(lia) ltac:(lia))
    as Hx.
  rewrite set_fits by (assumption || lia).
  rewrite inject_extract_spec by lia. reflexivity.
Qed.

Lemma set_of_got_value_is_identity_witness :
  static_assert W32 10 11 = true /\
  11 - 10 < 16 /\
  0 <= 0xDEADBEEF < 2 ^ bits W32 /\
  IMPLEMENT_REGISTER_GET W32 10 11 0xDEADBEEF = Ok 3 /\
  IMPLEMENT_REGISTER_SET W32 10 11 0xDEADBEEF 3 = Ok (true, 0xDEADBEEF).
Proof.
  split; [reflexivity|]. split; [lia|]. split; [simpl; lia|].
  split; [reflexivity|].
  apply (set_of_got_value_is_identity W32 10 11 0xDEADBEEF 3);
    [reflexivity | lia | simpl; lia | reflexivity].
Defined.

(** * Further properties of the register model *)

Section DeclaredFields.

Variables (c : register_class) (FIELD : string) (START END : Z).
Hypothesis Hcompiles : compiles c = true.
Hypothesis Hlayout : layout_of FIELD c = Some (START, END).

(** A field of a class that compiles lies within the raw value. *)
Lemma layout_in_range : 0 <= START <= END /\ END < raw_width c.
Proof.
  destruct c as [fs|fs|fs|fs]; cbn [layout_of compiles raw_width] in *.
  - apply static_assert_16_range.
    exact (find_field_compiles_16 _ _ _ _ Hcompiles Hlayout).
  - apply static_assert_32_range.
    exact (find_field_compiles_32 _ _ _ _ Hcompiles Hlayout).
  - destruct (find_field_with_perms FIELD fs) as [[[s e] p]|] eqn:Hfind;
      [|discriminate]. injection Hlayout as -> ->.
    apply static_assert_16_range.
    exact (find_field_with_perms_compiles_16 _ _ _ _ _ Hcompiles Hfind).
  - destruct (find_field_with_perms FIELD fs) as [[[s e] p]|] eqn:Hfind;
      [|discriminate]. injection Hlayout as -> ->.
    apply static_assert_32_range.
    exact (find_field_with_perms_compiles_32 _ _ _ _ _ Hcompiles Hfind).
Qed.

Variable raw : Z.
Hypothesis Hraw : 0 <= raw < 2 ^ raw_width c.
Hypothesis Hunchecked : with_perms c = false.

(** Per-field access through a class without permissions. *)
Lemma get_unchecked :
  get_ FIELD (mk_register c raw)
  = Some (Ok (to_uint16 (extract_spec raw START END))).
Proof.
  unfold get_.
  destruct c as [fs|fs|fs|fs];
    cbn [class_of register_raw layout_of compiles raw_width with_perms] in *;
    try discriminate; rewrite Hlayout.
  - rewrite (get_spec W16)
      by (assumption || exact (find_field_compiles_16 _ _ _ _ Hcompiles Hlayout)).
    reflexivity.
  - rewrite (get_spec W32)
      by (assumption || exact (find_field_compiles_32 _ _ _ _ Hcompiles Hlayout)).
    reflexivity.
Qed.

Lemma set_unchecked value :
  END - START < 31 ->
  0 <= value < 2 ^ (END - START + 1) ->
  set_ FIELD (mk_register c raw) value
  = Some (Ok (true, mk_register c (inject_spec raw START END value))).
Proof.
  intros Hnarrow Hv. pose proof layout_in_range as Hr. unfold set_.
  destruct c as [fs|fs|fs|fs];
    cbn [class_of register_raw layout_of compiles raw_width with_perms] in *;
    try discriminate; rewrite Hlayout.
  - pose proof (pow2_le (END - START + 1) 16 ltac:(lia)).
    rewrite to_uint16_small by lia.
    rewrite (set_fits W16)
      by (assumption || (cbn [bits]; lia)
          || exact (find_field_compiles_16 _ _ _ _ Hcompiles Hlayout)).
    reflexivity.
  - pose proof (pow2_le (END - START + 1) 32 ltac:(lia)).
    rewrite to_uint32_small by lia.
    rewrite (set_fits W32)
      by (assumption || (cbn [bits]; lia)
          || exact (find_field_compiles_32 _ _ _ _ Hcompiles Hlayout)).
    reflexivity.
Qed.

End DeclaredFields.

(** X13.  Every field of a freshly constructed register, and of a register
    after [clear_register_value], reads 0, whatever its permission. *)
Theorem cleared_register_reads_zero
  (r : register) (FIELD : string) (START END : Z) :
  compiles (class_of r) = true ->
  layout_of FIELD (class_of r) = Some (START, END) ->
  get_ FIELD (construct (class_of r)) = Some (Ok 0) /\
  get_ FIELD (clear_register_value r) = Some (Ok 0).
Proof.
  intros Hc Hl. destruct r as [c raw]. cbn [class_of] in *.
  unfold clear_register_value, construct. cbn [class_of].
  assert (Hzero : get_ FIELD (mk_register c 0) = Some (Ok 0)).
  { assert (H0 : 0 <= 0 < 2 ^ raw_width c)
      by (split; [lia | apply pow2_pos; destruct c; cbn; lia]).
    assert (E0 : to_uint16 (extract_spec 0 START END) = 0)
      by (unfold extract_spec; now rewrite Z.shiftr_0_l, Z.land_0_l).
    destruct (with_perms c) eqn:Hwp.
    - assert (Hp : exists P, perms_of FIELD c = Some P).
      { destruct c as [fs|fs|fs|fs]; cbn in Hwp; try discriminate;
          cbn [layout_of perms_of] in *;
          destruct (find_field_with_perms FIELD fs) as [[[s e] p]|];
          try discriminate; now exists p. }
      destruct Hp as [P Hp]. destruct P.
      + apply (get_denied (mk_register c 0) FIELD NONE Hp). now right.
      + rewrite (get_allowed (mk_register c 0) FIELD READ Hp START END Hc Hl H0) by now left.
        cbn [register_raw]. now rewrite E0.
      + apply (get_denied (mk_register c 0) FIELD WRITE Hp). now left.
      + rewrite (get_allowed (mk_register c 0) FIELD READ_WRITE Hp START END Hc Hl H0)
          by now right.
        cbn [register_raw]. now rewrite E0.
    - rewrite (get_unchecked c FIELD START END Hc Hl 0 H0 Hwp).
      now rewrite E0. }
  split; exact Hzero.
Qed.

Lemma cleared_register_reads_zero_witness :
  compiles (class_of (mk_register port_state_register 0xBEEF)) = true /\
  layout_of "link_width" (class_of (mk_register port_state_register 0xBEEF))
  = Some (4, 7) /\
  get_ "link_width" (construct port_state_register) = Some (Ok 0) /\
  get_ "link_width"
    (clear_register_value (mk_register port_state_register 0xBEEF))
  = Some (Ok 0).
Proof.
  split; [reflexivity|]. split; [reflexivity|].
  apply (cleared_register_reads_zero
           (mk_register port_state_register 0xBEEF) "link_width" 4 7);
    reflexivity.
Defined.

Lemma set_with_perms_range
  (w : width) (START END : Z) (PERMS : REGISTER_PERMS)
  (register_raw value : Z) (b : bool) (raw' : Z) :
  static_assert w START END = true ->
  0 <= register_raw < 2 ^ bits w ->
  0 <= value < 2 ^ bits w ->
  IMPLEMENT_REGISTER_SET_WITH_PERMS w START END PERMS register_raw value
  = Ok (b, raw') ->
  0 <= raw' < 2 ^ bits w.
Proof.
  intros Hf Hraw Hv Hset.
  destruct (set_with_perms_cases w START END PERMS register_raw value)
    as [Hdenied | Hsame].
  - rewrite Hdenied in Hset. now injection Hset as _ <-.
  - rewrite Hsame in Hset.
    exact (set_range w START END register_raw value Hf Hraw Hv b raw' Hset).
Qed.

(** X14.  Invariant of the register object: [set_register_value] (of any
    argument, which is converted to the raw value's type),
    [clear_register_value] and every per-field setter that returns leave
    an object of the same class whose raw value is again of the
    register's width. *)
Theorem register_operations_keep_raw_in_range (r : register) :
  compiles (class_of r) = true ->
  0 <= register_raw r < 2 ^ raw_width (class_of r) ->
  (forall value,
     0 <= register_raw (set_register_value r value)
     < 2 ^ raw_width (class_of r)) /\
  0 <= register_raw (clear_register_value r) < 2 ^ raw_width (class_of r) /\
  (forall FIELD value b r',
     set_ FIELD r value = Some (Ok (b, r')) ->
     class_of r' = class_of r /\
     0 <= register_raw r' < 2 ^ raw_width (class_of r)).
Proof.
  intros Hc Hraw. destruct r as [c raw]. cbn [class_of register_raw] in *.
  split; [|split].
  - intros value. unfold set_register_value. cbn [register_raw class_of].
    destruct c; cbn [to_raw raw_width]; apply Z.mod_pos_bound; lia.
  - unfold clear_register_value. cbn [register_raw class_of].
    split; [lia | apply pow2_pos; destruct c; cbn; lia].
  - intros FIELD value b r' Hset. unfold set_, commit in Hset.
    destruct c as [fs|fs|fs|fs];
      cbn [class_of register_raw compiles raw_width] in *.
    + destruct (find_field FIELD fs) as [[s e]|] eqn:Hfind; [|discriminate].
      pose proof (find_field_compiles_16 _ _ _ _ Hc Hfind) as Hf.
      destruct (IMPLEMENT_REGISTER_16_SET s e raw (to_uint16 value))
        as [[b0 raw0]|] eqn:E; cbn [bind fst snd] in Hset; [|discriminate].
      injection Hset as <- <-. split; [reflexivity|]. cbn [register_raw].
      apply (set_range W16 s e raw (to_uint16 value) Hf Hraw
               ltac:(apply Z.mod_pos_bound; reflexivity) b0 raw0 E).
    + destruct (find_field FIELD fs) as [[s e]|] eqn:Hfind; [|discriminate].
      pose proof (find_field_compiles_32 _ _ _ _ Hc Hfind) as Hf.
      destruct (IMPLEMENT_REGISTER_32_SET s e raw (to_uint32 value))
        as [[b0 raw0]|] eqn:E; cbn [bind fst snd] in Hset; [|discriminate].
      injection Hset as <- <-. split; [reflexivity|]. cbn [register_raw].
      apply (set_range W32 s e raw (to_uint32 value) Hf Hraw
               ltac:(apply Z.mod_pos_bound; reflexivity) b0 raw0 E).
    + destruct (find_field_with_perms FIELD fs) as [[[s e] p]|] eqn:Hfind;
        [|discriminate].
      pose proof (find_field_with_perms_compiles_16 _ _ _ _ _ Hc Hfind) as Hf.
      destruct (IMPLEMENT_REGISTER_16_SET_WITH_PERMS s e p raw (to_uint16 value))
        as [[b0 raw0]|] eqn:E; cbn [bind fst snd] in Hset; [|discriminate].
      injection Hset as <- <-. split; [reflexivity|]. cbn [register_raw].
      apply (set_with_perms_range W16 s e p raw (to_uint16 value) b0 raw0 Hf Hraw
               ltac:(apply Z.mod_pos_bound; reflexivity) E).
    + destruct (find_field_with_perms FIELD fs) as [[[s e] p]|] eqn:Hfind;
        [|discriminate].
      pose proof (find_field_with_perms_compiles_32 _ _ _ _ _ Hc Hfind) as Hf.
      destruct (IMPLEMENT_REGISTER_32_SET_WITH_PERMS s e p raw (to_uint32 value))
        as [[b0 raw0]|] eqn:E; cbn [bind fst snd] in Hset; [|discriminate].
      injection Hset as <- <-. split; [reflexivity|]. cbn [register_raw].
      apply (set_with_perms_range W32 s e p raw (to_uint32 value) b0 raw0 Hf Hraw
               ltac:(apply Z.mod_pos_bound; reflexivity) E).
Qed.

Lemma register_operations_keep_raw_in_range_witness :
  compiles (class_of (construct link_control_register)) = true /\
  0 <= register_raw (construct link_control_register)
  < 2 ^ raw_width (class_of (construct link_control_register)) /\
  0 <= register_raw
         (set_register_value (construct link_control_register) 0x12345)
  < 2 ^ raw_width (class_of (construct link_control_register)) /\
  register_raw (set_register_value (construct link_control_register) 0x12345)
  = 0x2345.
Proof.
  split; [reflexivity|]. split; [simpl; lia|].
  destruct (register_operations_keep_raw_in_range
              (construct link_control_register))
    as (Hset & _ & _); [reflexivity | simpl; lia |].
  split; [exact (Hset 0x12345) | reflexivity].
Defined.

(** X15.  In a permission-checked register the setter of a field with
    permission [READ] or [NONE] returns [false] for every value, fitting
    or not, and the object is left as it was. *)
Theorem set_without_write_permission
  (r : register) (FIELD : string) (PERMS : REGISTER_PERMS) (value : Z) :
  perms_of FIELD (class_of r) = Some PERMS ->
  PERMS = READ \/ PERMS = NONE ->
  set_ FIELD r value = Some (Ok (false, r)).
Proof.
  intros Hperms Hp. exact (set_denied r FIELD PERMS Hperms value Hp).
Qed.

Lemma set_without_write_permission_witness :
  perms_of "tag" (class_of (mk_register port_state_register 0xBEEF))
  = Some NONE /\
  (NONE = READ \/ NONE = NONE) /\
  set_ "tag" (mk_register port_state_register 0xBEEF) 0x7
  = Some (Ok (false, mk_register port_state_register 0xBEEF)).
Proof.
  split; [reflexivity|]. split; [right; reflexivity|].
  apply (set_without_write_permission
           (mk_register port_state_register 0xBEEF) "tag" NONE 0x7);
    [reflexivity | right; reflexivity].
Defined.

(** X16.  A [WRITE]-only field of fewer than 32 bits takes a value that
    fits: the setter returns [true]; afterwards the field's own getter
    still returns 0, while the value sits in the field's bits of what
    [get_register_value] returns. *)
Theorem write_only_field_is_stored_but_not_read
  (r : register) (FIELD : string) (START END value : Z) :
  compiles (class_of r) = true ->
  perms_of FIELD (class_of r) = Some WRITE ->
  layout_of FIELD (class_of r) = Some (START, END) ->
  END - START < 31 ->
  0 <= register_raw r < 2 ^ raw_width (class_of r) ->
  0 <= value < 2 ^ (END - START + 1) ->
  exists r',
    set_ FIELD r value = Some (Ok (true, r')) /\
    get_ FIELD r' = Some (Ok 0) /\
    extract_spec (get_register_value r') START END = value.
Proof.
  intros Hc Hp Hl Hnarrow Hraw Hv.
  pose proof (layout_in_range _ _ _ _ Hc Hl) as Hr.
  exists (mk_register (class_of r)
            (inject_spec (register_raw r) START END value)).
  split; [|split].
  - apply (set_allowed r FIELD WRITE Hp START END Hc Hl Hraw value);
      [now left | lia | assumption].
  - apply (get_denied _ FIELD WRITE); [exact Hp | now left].
  - unfold get_register_value. cbn [register_raw].
    apply extract_inject_spec; assumption || lia.
Qed.

Lemma write_only_field_is_stored_but_not_read_witness :
  compiles (class_of (construct port_state_register)) = true /\
  perms_of "key" (class_of (construct port_state_register)) = Some WRITE /\
  layout_of "key" (class_of (construct port_state_register)) = Some (8, 11) /\
  11 - 8 < 31 /\
  0 <= register_raw (construct port_state_register)
  < 2 ^ raw_width (class_of (construct port_state_register)) /\
  0 <= 0xA < 2 ^ (11 - 8 + 1) /\
  exists r',
    set_ "key" (construct port_state_register) 0xA = Some (Ok (true, r')) /\
    get_ "key" r' = Some (Ok 0) /\
    extract_spec (get_register_value r') 8 11 = 0xA.
Proof.
  split; [reflexivity|]. split; [reflexivity|]. split; [reflexivity|].
  split; [lia|]. split; [simpl; lia|]. split; [simpl; lia|].
  apply (write_only_field_is_stored_but_not_read
           (construct port_state_register) "key" 8 11 0xA);
    [reflexivity | reflexivity | reflexivity | lia | simpl; lia | simpl; lia].
Defined.

(** X17.  Round trip through a declared class: for a field of at most 16
    bits, in a class without permissions or with the field [READ_WRITE],
    [set_FIELD] of a value that fits returns [true] and [get_FIELD] on the
    object it leaves returns the value; the object keeps its class. *)
Theorem register_field_round_trip
  (r : register) (FIELD : string) (START END value : Z) :
  compiles (class_of r) = true ->
  with_perms (class_of r) = false \/
  perms_of FIELD (class_of r) = Some READ_WRITE ->
  layout_of FIELD (class_of r) = Some (START, END) ->
  END - START < 16 ->
  0 <= register_raw r < 2 ^ raw_width (class_of r) ->
  0 <= value < 2 ^ (END - START + 1) ->
  exists r',
    set_ FIELD r value = Some (Ok (true, r')) /\
    class_of r' = class_of r /\
    get_ FIELD r' = Some (Ok value).
Proof.
  intros Hc Hkind Hl Hw Hraw Hv.
  pose proof (layout_in_range _ _ _ _ Hc Hl) as Hr.
  set (raw' := inject_spec (register_raw r) START END value).
  assert (Hraw' : 0 <= raw' < 2 ^ raw_width (class_of r))
    by (apply inject_spec_bounds; assumption || lia).
  assert (Hback : to_uint16 (extract_spec raw' START END) = value).
  { unfold raw'. rewrite extract_inject_spec by (assumption || lia).
    pose proof (pow2_le (END - START + 1) 16 ltac:(lia)).
    apply to_uint16_small. lia. }
  exists (mk_register (class_of r) raw').
  split; [|split; [reflexivity|]].
  - destruct Hkind as [Hun | Hp].
    + destruct r as [c raw]. cbn [class_of register_raw] in *.
      apply set_unchecked; assumption || lia.
    + apply (set_allowed r FIELD READ_WRITE Hp START END Hc Hl Hraw value);
        [now right | lia | assumption].
  - destruct Hkind as [Hun | Hp].
    + rewrite (get_unchecked (class_of r) FIELD START END Hc Hl raw' Hraw' Hun).
      now rewrite Hback.
    + rewrite (get_allowed (mk_register (class_of r) raw') FIELD READ_WRITE
                 Hp START END Hc Hl Hraw') by now right.
      cbn [register_raw]. now rewrite Hback.
Qed.

Lemma register_field_round_trip_witness :
  compiles (class_of (construct link_capabilites_register)) = true /\
  (with_perms (class_of (construct link_capabilites_register)) = false \/
   perms_of "port_number" (class_of (construct link_capabilites_register))
   = Some READ_WRITE) /\
  layout_of "port_number" (class_of (construct link_capabilites_register))
  = Some (24, 31) /\
  31 - 24 < 16 /\
  0 <= register_raw (construct link_capabilites_register)
  < 2 ^ raw_width (class_of (construct link_capabilites_register)) /\
  0 <= 0xFF < 2 ^ (31 - 24 + 1) /\
  exists r',
    set_ "port_number" (construct link_capabilites_register) 0xFF
    = Some (Ok (true, r')) /\
    class_of r' = class_of (construct link_capabilites_register) /\
    get_ "port_number" r' = Some (Ok 0xFF).
Proof.
  split; [reflexivity|]. split; [left; reflexivity|]. split; [reflexivity|].
  split; [lia|]. split; [simpl; lia|]. split; [simpl; lia|].
  apply (register_field_round_trip
           (construct link_capabilites_register) "port_number" 24 31 0xFF);
    [reflexivity | left; reflexivity | reflexivity | lia | simpl; lia
    | simpl; lia].
Defined.

(** X18.  Where the accessors are defined: for a field that passes the
    [static_assert]s the getter always has a defined result, and the
    setter has one exactly when the field has fewer than 32 bits. *)
Theorem accessors_defined_except_full_width_set
  (w : width) (START END register_raw value : Z) :
  static_assert w START END = true ->
  0 <= register_raw < 2 ^ bits w ->
  0 <= value < 2 ^ bits w ->
  (exists x, IMPLEMENT_REGISTER_GET w START END register_raw = Ok x) /\
  ((exists y, IMPLEMENT_REGISTER_SET w START END register_raw value = Ok y)
   <-> END - START < 31).
Proof.
  intros Hf Hraw Hv. split; [|split].
  - eexists. now apply get_spec.
  - intros [[b raw'] Hset].
    now destruct (set_ok_inv w START END register_raw value Hf Hraw Hv
                    b raw' Hset).
  - intros Hnarrow. eexists. now apply set_spec.
Qed.

Lemma accessors_defined_except_full_width_set_witness :
  static_assert W32 1 31 = true /\
  0 <= 0xDEADBEEF < 2 ^ bits W32 /\
  0 <= 0x7FFFFFFF < 2 ^ bits W32 /\
  (exists x, IMPLEMENT_REGISTER_GET W32 1 31 0xDEADBEEF = Ok x) /\
  ((exists y, IMPLEMENT_REGISTER_SET W32 1 31 0xDEADBEEF 0x7FFFFFFF = Ok y)
   <-> 31 - 1 < 31).
Proof.
  split; [reflexivity|]. split; [simpl; lia|]. split; [simpl; lia|].
  apply (accessors_defined_except_full_width_set W32 1 31 0xDEADBEEF 0x7FFFFFFF);
    [reflexivity | simpl; lia | simpl; lia].
Defined.
